(** * Rigid-body physics core of madrona: narrowphase and XPBD solver

    Shallow embedding of [src/src/physics/physics.cpp].

    - C++ [float] is IEEE-754 binary32.  It is modelled with the Standard
      Library's executable specification of floating-point arithmetic
      ([SpecFloat]) at precision 24 and maximal exponent 128, every
      operation rounding to nearest-even on its own (no fused
      multiply-add contraction).
    - The ECS context ([Context &ctx]) is a record of per-entity component
      stores (finite maps keyed by entity) plus the per-world singletons.
    - [assert], the unreachable [default:] of the narrowphase switch and
      writes outside the contact buffer are outcomes of an error monad. *)

From Stdlib Require Import ZArith List Bool Lia SpecFloat.
From stdpp Require Import base option list gmap.

Local Open Scope Z_scope.

(** ** binary32 arithmetic *)

Module F32.

Definition prec : Z := 24.
Definition emax : Z := 128.

Definition float : Type := spec_float.

Definition add : float -> float -> float := SFadd prec emax.
Definition sub : float -> float -> float := SFsub prec emax.
Definition mul : float -> float -> float := SFmul prec emax.
Definition div : float -> float -> float := SFdiv prec emax.
Definition sqrt : float -> float := SFsqrt prec emax.
Definition neg : float -> float := SFopp.
Definition ltb : float -> float -> bool := SFltb.
Definition leb : float -> float -> bool := SFleb.
Definition eqb : float -> float -> bool := SFeqb.

(** Conversion of an integer to [float] ([(float)num_substeps], and the
    integer literals [0] that C++ promotes in mixed comparisons). *)
Definition of_Z (n : Z) : float := binary_normalize prec emax n 0 false.

Definition zero : float := S754_zero false.
Definition one : float := Eval vm_compute in of_Z 1.
Definition two : float := Eval vm_compute in of_Z 2.
(** The literal [0.5f]. *)
Definition half : float := Eval vm_compute in div (of_Z 1) (of_Z 2).
(** The literal [0.4] narrowed to [float]: the binary32 nearest to 2/5. *)
Definition lit_0_4 : float := Eval vm_compute in div (of_Z 2) (of_Z 5).

(** libm's [fabsf] and [fminf] (a NaN argument yields the other one). *)
Definition fabsf : float -> float := SFabs.
Definition fminf (a b : float) : float :=
  match a, b with
  | S754_nan, _ => b
  | _, S754_nan => a
  | _, _ => if ltb b a then b else a
  end.

Definition is_nan (a : float) : bool :=
  match a with S754_nan => true | _ => false end.
Definition is_zero (a : float) : bool :=
  match a with S754_zero _ => true | _ => false end.
Definition is_finite (a : float) : bool :=
  match a with S754_zero _ | S754_finite _ _ _ => true | _ => false end.

End F32.

Abbreviation float := F32.float.

Declare Scope f32_scope.
Delimit Scope f32_scope with f32.
Infix "+" := F32.add : f32_scope.
Infix "-" := F32.sub : f32_scope.
Infix "*" := F32.mul : f32_scope.
Infix "/" := F32.div : f32_scope.
Notation "- a" := (F32.neg a) : f32_scope.
Infix "<?" := F32.ltb : f32_scope.
Infix "<=?" := F32.leb : f32_scope.
Infix "=?" := F32.eqb : f32_scope.

#[global] Instance float_inhabited : Inhabited float := populate F32.zero.

(** ** Vectors and quaternions ([madrona/math.hpp])

    The header is not among the sources.  The records follow the member
    names used in [physics.cpp] ([.x .y .z .w]). *)

Record Vector3 := mkVector3 { v3_x : float; v3_y : float; v3_z : float }.
Record Vector4 :=
  mkVector4 { v4_x : float; v4_y : float; v4_z : float; v4_w : float }.
Record Quat :=
  mkQuat { q_w : float; q_x : float; q_y : float; q_z : float }.

Definition v3_zero : Vector3 := mkVector3 F32.zero F32.zero F32.zero.
Definition v4_zero : Vector4 :=
  mkVector4 F32.zero F32.zero F32.zero F32.zero.

#[global] Instance Vector3_inhabited : Inhabited Vector3 := populate v3_zero.
#[global] Instance Vector4_inhabited : Inhabited Vector4 := populate v4_zero.
#[global] Instance Quat_inhabited : Inhabited Quat :=
  populate (mkQuat F32.one F32.zero F32.zero F32.zero).

(** Modelled from the spec: [madrona/math.hpp] is missing; the arithmetic
    operators of [Vector3] used by the solver ([a + b], [a - b], [-a],
    [s * v], [v * s], and the per-axis product used for [Scale]) act on
    each coordinate with one [float] operation. *)
Definition v3_add (a b : Vector3) : Vector3 :=
  mkVector3 (v3_x a + v3_x b)%f32 (v3_y a + v3_y b)%f32 (v3_z a + v3_z b)%f32.
Definition v3_sub (a b : Vector3) : Vector3 :=
  mkVector3 (v3_x a - v3_x b)%f32 (v3_y a - v3_y b)%f32 (v3_z a - v3_z b)%f32.
Definition v3_neg (a : Vector3) : Vector3 :=
  mkVector3 (- v3_x a)%f32 (- v3_y a)%f32 (- v3_z a)%f32.
(** [s * v] *)
Definition v3_scale (s : float) (v : Vector3) : Vector3 :=
  mkVector3 (s * v3_x v)%f32 (s * v3_y v)%f32 (s * v3_z v)%f32.
(** [v * s] *)
Definition v3_mulf (v : Vector3) (s : float) : Vector3 :=
  mkVector3 (v3_x v * s)%f32 (v3_y v * s)%f32 (v3_z v * s)%f32.
(** [(Vector3)scale * v] *)
Definition v3_mul (a b : Vector3) : Vector3 :=
  mkVector3 (v3_x a * v3_x b)%f32 (v3_y a * v3_y b)%f32 (v3_z a * v3_z b)%f32.

(** [makeVector4(v, w)] and [Vector4::xyz()]. *)
Definition makeVector4 (v : Vector3) (w : float) : Vector4 :=
  mkVector4 (v3_x v) (v3_y v) (v3_z v) w.
Definition v4_xyz (p : Vector4) : Vector3 :=
  mkVector3 (v4_x p) (v4_y p) (v4_z p).

(** ** Data model *)

(** An ECS entity handle. *)
Definition Entity : Type := nat.

Record Contact := mkContact {
  ref : Entity;
  alt : Entity;
  points : list Vector4;      (* [Vector4 points[4]] *)
  numPoints : Z;
  normal : Vector3;
  lambdaN : float;
}.

(** What an unwritten slot of the raw-allocated contact buffer holds. *)
Definition uninit_contact : Contact :=
  mkContact 0%nat 0%nat [v4_zero; v4_zero; v4_zero; v4_zero] 0 v3_zero
            F32.zero.

#[global] Instance Contact_inhabited : Inhabited Contact :=
  populate uninit_contact.

Record SolverData := mkSolverData {
  contacts : list Contact;    (* buffer of [max_contacts_per_step] slots *)
  numContacts : Z;
  maxContacts : Z;
  deltaT : float;
  h : float;
  g : Vector3;
  gMagnitude : float;
  restitutionThreshold : float;
}.

Definition set_contacts (s : SolverData) (cs : list Contact) : SolverData :=
  mkSolverData cs (numContacts s) (maxContacts s) (deltaT s) (h s) (g s)
               (gMagnitude s) (restitutionThreshold s).
Definition set_numContacts (s : SolverData) (n : Z) : SolverData :=
  mkSolverData (contacts s) n (maxContacts s) (deltaT s) (h s) (g s)
               (gMagnitude s) (restitutionThreshold s).

(** ** Outcomes of fallible code *)

Inductive outcome (A : Type) : Type :=
| Done (a : A)                (* ran to completion *)
| AssertFailed                (* an [assert] did not hold *)
| BufferOverrun (idx : Z)     (* a store outside the contact buffer *)
| Unreachable.                (* [__builtin_unreachable()] was reached *)

Arguments Done {A} a.
Arguments AssertFailed {A}.
Arguments BufferOverrun {A} idx.
Arguments Unreachable {A}.

Definition obind {A B} (m : outcome A) (k : A -> outcome B) : outcome B :=
  match m with
  | Done a => k a
  | AssertFailed => AssertFailed
  | BufferOverrun i => BufferOverrun i
  | Unreachable => Unreachable
  end.

Notation "'let*' x ':=' m 'in' k" := (obind m (fun x => k))
  (at level 10, x name, m at level 100, k at level 200).

(** ** [SolverData::addContacts]

    The [fetch_add] on the atomic counter is taken one call at a time (the
    calls of a substep in some serial order); [CountT] is an unbounded
    integer, the narrowing to [int32_t] is written out. *)

(** Narrowing of a [CountT] to the [int32_t contact_idx]. *)
Definition to_int32 (n : Z) : Z := (n + 2 ^ 31) mod 2 ^ 32 - 2 ^ 31.

(** The store loop [contacts[contact_idx + i] = added_contacts[i]]; [idx]
    is [contact_idx + i]. *)
Fixpoint storeContacts (buf : list Contact) (idx : Z) (added : list Contact)
  : outcome (list Contact) :=
  match added with
  | [] => Done buf
  | c :: rest =>
      if (0 <=? idx) && (idx <? Z.of_nat (length buf))
      then storeContacts (<[Z.to_nat idx := c]> buf) (idx + 1) rest
      else BufferOverrun idx
  end.

Definition addContacts (s : SolverData) (added_contacts : list Contact)
  : outcome SolverData :=
  let contact_idx := to_int32 (numContacts s) in
  let s := set_numContacts s (numContacts s + Z.of_nat (length added_contacts)) in
  if contact_idx <? maxContacts s then
    let* buf := storeContacts (contacts s) contact_idx added_contacts in
    Done (set_contacts s buf)
  else AssertFailed.

(** ** Geometry and the object catalogue *)

(** [geometry::HalfEdgeMesh]: only the vertex array is read here
    ([getVertexCount], [vertex]); faces and edges are used by the SAT
    routines alone. *)
Record HalfEdgeMesh := mkHalfEdgeMesh { mesh_vertices : list Vector3 }.

Definition getVertexCount (m : HalfEdgeMesh) : Z :=
  Z.of_nat (length (mesh_vertices m)).
Definition vertex (m : HalfEdgeMesh) (v : Z) : Vector3 :=
  mesh_vertices m !!! Z.to_nat v.

Record CollisionMesh := mkCollisionMesh {
  halfEdgeMesh : HalfEdgeMesh;
  vertexCount : Z;
  vertices : list Vector3;     (* scratch array from the [TmpAllocator] *)
  center : Vector3;
}.

Record Plane := mkPlane { plane_point : Vector3; plane_normal : Vector3 }.

Record Manifold := mkManifold {
  contactPoints : list Vector4;     (* [Vector4 contactPoints[4]] *)
  numContactPoints : Z;
  manifold_normal : Vector3;
  aIsReference : bool;
}.

(** [CollisionPrimitive]: a type tag and a union of [sphere], [plane],
    [hull]. *)
Inductive CollisionPrimitive :=
| PrimSphere (radius : float)
| PrimHull (mesh : HalfEdgeMesh)
| PrimPlane.

(** Modelled from the spec: the enumerators of [CollisionPrimitive::Type]
    are declared in the missing [madrona/physics.hpp]; the spec gives the
    ranks sphere = 1, hull = 2, plane = 4. *)
Definition raw_type (p : CollisionPrimitive) : Z :=
  match p with PrimSphere _ => 1 | PrimHull _ => 2 | PrimPlane => 4 end.

(** The union members [prim->sphere.radius] and [prim->hull.halfEdgeMesh];
    the dispatch reads each one only under the matching tag. *)
Definition sphere_radius (p : CollisionPrimitive) : float :=
  match p with PrimSphere r => r | _ => F32.zero end.
Definition hull_halfEdgeMesh (p : CollisionPrimitive) : HalfEdgeMesh :=
  match p with PrimHull m => m | _ => mkHalfEdgeMesh [] end.

#[global] Instance CollisionPrimitive_inhabited :
  Inhabited CollisionPrimitive := populate PrimPlane.

Record RigidBodyMetadata := mkRigidBodyMetadata {
  invInertiaTensor : Vector3;
  invMass : float;
  muS : float;
  muD : float;
}.

#[global] Instance RigidBodyMetadata_inhabited :
  Inhabited RigidBodyMetadata :=
  populate (mkRigidBodyMetadata v3_zero F32.zero F32.zero F32.zero).

Record ObjectManager := mkObjectManager {
  primitives : list CollisionPrimitive;
  metadata : list RigidBodyMetadata;
}.

(** ** Components and the ECS context *)

Record Velocity := mkVelocity { linear : Vector3; angular : Vector3 }.
Record SubstepPrevState :=
  mkSubstepPrevState { prevPosition : Vector3; prevRotation : Quat }.
Record SubstepStartState :=
  mkSubstepStartState { startPosition : Vector3; startRotation : Quat }.
Record SubstepVelocityState :=
  mkSubstepVelocityState { prevLinear : Vector3; prevAngular : Vector3 }.

Record CandidateCollision :=
  mkCandidateCollision { cand_a : Entity; cand_b : Entity }.
Record CollisionEvent :=
  mkCollisionEvent { event_a : Entity; event_b : Entity }.

#[global] Instance Velocity_inhabited : Inhabited Velocity :=
  populate (mkVelocity v3_zero v3_zero).
#[global] Instance SubstepPrevState_inhabited : Inhabited SubstepPrevState :=
  populate (mkSubstepPrevState inhabitant inhabitant).
#[global] Instance SubstepStartState_inhabited :
  Inhabited SubstepStartState :=
  populate (mkSubstepStartState inhabitant inhabitant).
#[global] Instance SubstepVelocityState_inhabited :
  Inhabited SubstepVelocityState :=
  populate (mkSubstepVelocityState v3_zero v3_zero).

(** [ctx.getUnsafe<T>(e)] is the total lookup [store !!! e]; on an entity
    without the component (undefined behaviour in C++) it yields the
    type's inhabitant.  [ctx.getSingleton<SolverData>()] and
    [*ctx.getSingleton<ObjectData>().mgr] are the fields [ctx_solver] and
    [ctx_objMgr]; the rows of the [CollisionEventTemporary] archetype are
    [ctx_events], in creation order. *)
Record Context := mkContext {
  ctx_Position : gmap Entity Vector3;
  ctx_Rotation : gmap Entity Quat;
  ctx_Scale : gmap Entity Vector3;
  ctx_Velocity : gmap Entity Velocity;
  ctx_ObjectID : gmap Entity nat;
  ctx_PrevState : gmap Entity SubstepPrevState;
  ctx_StartState : gmap Entity SubstepStartState;
  ctx_VelocityState : gmap Entity SubstepVelocityState;
  ctx_solver : SolverData;
  ctx_objMgr : ObjectManager;
  ctx_events : list CollisionEvent;
}.

Definition set_Position (ctx : Context) (e : Entity) (p : Vector3) : Context :=
  mkContext (<[e := p]> (ctx_Position ctx)) (ctx_Rotation ctx) (ctx_Scale ctx)
    (ctx_Velocity ctx) (ctx_ObjectID ctx) (ctx_PrevState ctx)
    (ctx_StartState ctx) (ctx_VelocityState ctx) (ctx_solver ctx)
    (ctx_objMgr ctx) (ctx_events ctx).
Definition set_Rotation (ctx : Context) (e : Entity) (q : Quat) : Context :=
  mkContext (ctx_Position ctx) (<[e := q]> (ctx_Rotation ctx)) (ctx_Scale ctx)
    (ctx_Velocity ctx) (ctx_ObjectID ctx) (ctx_PrevState ctx)
    (ctx_StartState ctx) (ctx_VelocityState ctx) (ctx_solver ctx)
    (ctx_objMgr ctx) (ctx_events ctx).
Definition set_Velocity (ctx : Context) (e : Entity) (v : Velocity) : Context :=
  mkContext (ctx_Position ctx) (ctx_Rotation ctx) (ctx_Scale ctx)
    (<[e := v]> (ctx_Velocity ctx)) (ctx_ObjectID ctx) (ctx_PrevState ctx)
    (ctx_StartState ctx) (ctx_VelocityState ctx) (ctx_solver ctx)
    (ctx_objMgr ctx) (ctx_events ctx).
Definition set_solver (ctx : Context) (s : SolverData) : Context :=
  mkContext (ctx_Position ctx) (ctx_Rotation ctx) (ctx_Scale ctx)
    (ctx_Velocity ctx) (ctx_ObjectID ctx) (ctx_PrevState ctx)
    (ctx_StartState ctx) (ctx_VelocityState ctx) s
    (ctx_objMgr ctx) (ctx_events ctx).
(** [ctx.makeTemporary<CollisionEventTemporary>()] followed by the store
    of the event into the new row. *)
Definition add_event (ctx : Context) (ev : CollisionEvent) : Context :=
  mkContext (ctx_Position ctx) (ctx_Rotation ctx) (ctx_Scale ctx)
    (ctx_Velocity ctx) (ctx_ObjectID ctx) (ctx_PrevState ctx)
    (ctx_StartState ctx) (ctx_VelocityState ctx) (ctx_solver ctx)
    (ctx_objMgr ctx) (ctx_events ctx ++ [ev]).

(** ** The parts of the math and geometry libraries taken as parameters

    [length], [dot], [cross], division of a vector by a scalar and every
    quaternion operation are declared in the missing [madrona/math.hpp];
    [doSAT] and [doSATPlane] in the missing geometry sources.  The code
    below is embedded over any implementation of them. *)
Class MathOps := {
  v3_div : Vector3 -> float -> Vector3;        (* [v / s] *)
  v3_length : Vector3 -> float;                (* [v.length()] *)
  dot : Vector3 -> Vector3 -> float;
  cross : Vector3 -> Vector3 -> Vector3;
  rotateVec : Quat -> Vector3 -> Vector3;      (* [q.rotateVec(v)] *)
  quat_inv : Quat -> Quat;                     (* [q.inv()] *)
  quat_mul : Quat -> Quat -> Quat;             (* [a * b] *)
  quat_add : Quat -> Quat -> Quat;
  quat_sub : Quat -> Quat -> Quat;
  quat_normalize : Quat -> Quat;
  fromAngularVec : Vector3 -> Quat;            (* [Quat::fromAngularVec] *)
}.

Class SATOps := {
  doSAT : CollisionMesh -> CollisionMesh -> Manifold;
  doSATPlane : Plane -> CollisionMesh -> Manifold;
}.

Section Physics.

Context {M : MathOps} {G : SATOps}.

(** ** [SolverData::SolverData] *)

Definition SolverData_init (max_contacts_per_step : Z) (delta_t : float)
    (num_substeps : Z) (gravity : Vector3) : SolverData :=
  let h := (delta_t / F32.of_Z num_substeps)%f32 in
  let gMagnitude := v3_length gravity in
  {| contacts := replicate (Z.to_nat max_contacts_per_step) uninit_contact;
     numContacts := 0;
     maxContacts := max_contacts_per_step;
     deltaT := delta_t;
     h := h;
     g := gravity;
     gMagnitude := gMagnitude;
     restitutionThreshold := (F32.two * gMagnitude * h)%f32 |}.

(** ** Narrowphase ([narrowphase::runNarrowphase]) *)

(** The enumerators of [NarrowphaseTest]. *)
Definition SphereSphere : Z := 1.
Definition HullHull : Z := 2.
Definition SphereHull : Z := 3.
Definition PlanePlane : Z := 4.
Definition SpherePlane : Z := 5.
Definition HullPlane : Z := 6.

(** [solver.addContacts({{ ... }})] on the singleton held by the context. *)
Definition ctx_addContacts (ctx : Context) (added : list Contact)
  : outcome Context :=
  let* s := addContacts (ctx_solver ctx) added in
  Done (set_solver ctx s).

(** [case NarrowphaseTest::SphereSphere] *)
Definition narrowphaseSphereSphere (ctx : Context)
    (candidate_collision : CandidateCollision)
    (a_entity b_entity : Entity) (a_prim b_prim : CollisionPrimitive)
    (a_pos b_pos : Vector3) : outcome Context :=
  let a_radius := sphere_radius a_prim in
  let b_radius := sphere_radius b_prim in
  let to_b := v3_sub b_pos a_pos in
  let dist := v3_length to_b in
  if (F32.zero <? dist)%f32 && (dist <? a_radius + b_radius)%f32 then
    let mid := v3_div to_b F32.two in
    let to_b_normal := v3_div to_b dist in
    let* ctx := ctx_addContacts ctx
      [ {| ref := a_entity;
           alt := b_entity;
           points := [ makeVector4 (v3_add a_pos mid) (dist / F32.two)%f32;
                       v4_zero; v4_zero; v4_zero ];
           numPoints := 1;
           normal := to_b_normal;
           lambdaN := F32.zero |} ] in
    Done (add_event ctx
            {| event_a := cand_a candidate_collision;
               event_b := cand_b candidate_collision |})
  else Done ctx.

(** [case NarrowphaseTest::SpherePlane] *)
Definition narrowphaseSpherePlane (ctx : Context)
    (a_entity b_entity : Entity) (a_prim b_prim : CollisionPrimitive)
    (a_pos b_pos : Vector3) : outcome Context :=
  let sphere_radius := sphere_radius a_prim in
  let b_rot := ctx_Rotation ctx !!! b_entity in
  let base_normal := mkVector3 F32.zero F32.zero F32.one in
  let plane_normal := rotateVec b_rot base_normal in
  let d := dot plane_normal b_pos in
  let t := (dot plane_normal a_pos - d)%f32 in
  if (t <? sphere_radius)%f32 then
    ctx_addContacts ctx
      [ {| ref := a_entity;
           alt := b_entity;
           points := [ makeVector4
                         (v3_add a_pos (v3_mulf plane_normal sphere_radius)) t;
                       v4_zero; v4_zero; v4_zero ];
           numPoints := 1;
           normal := plane_normal;
           lambdaN := F32.zero |} ]
  else Done ctx.

(** The lambda [transformVertex] of the hull branches. *)
Definition transformVertex (ctx : Context) (v : Vector3) (e : Entity)
  : Vector3 :=
  let e_scale := ctx_Scale ctx !!! e in
  let e_rotation := ctx_Rotation ctx !!! e in
  let e_position := ctx_Position ctx !!! e in
  v3_add e_position (rotateVec e_rotation (v3_mul e_scale v)).

(** Filling of a [geometry::CollisionMesh]: the count is read from the
    mesh, then the loop stores [transformVertex(hEdge.vertex(v), e)] for
    [v = 0 .. vertexCount - 1]. *)
Definition buildCollisionMesh (ctx : Context) (hEdge : HalfEdgeMesh)
    (e : Entity) (e_pos : Vector3) : CollisionMesh :=
  let vertexCount := getVertexCount hEdge in
  {| halfEdgeMesh := hEdge;
     vertexCount := vertexCount;
     vertices :=
       map (fun v : nat => transformVertex ctx (vertex hEdge (Z.of_nat v)) e)
           (seq 0 (Z.to_nat vertexCount));
     center := e_pos |}.

(** The two world-space meshes of the hull/hull branch, as handed to
    [doSAT].  Both [hEdgeA] and [hEdgeB] are bound to
    [a_prim->hull.halfEdgeMesh], as in the source. *)
Definition hullHullMeshes (ctx : Context) (a_entity b_entity : Entity)
    (a_prim b_prim : CollisionPrimitive) (a_pos b_pos : Vector3)
  : CollisionMesh * CollisionMesh :=
  let hEdgeA := hull_halfEdgeMesh a_prim in
  let hEdgeB := hull_halfEdgeMesh a_prim in
  let collisionMeshA := buildCollisionMesh ctx hEdgeA a_entity a_pos in
  let collisionMeshB := buildCollisionMesh ctx hEdgeB b_entity b_pos in
  (collisionMeshA, collisionMeshB).

(** The contact built from a manifold, [{ ref, alt, { contactPoints[0..3] },
    numContactPoints, normal, 0.f }]. *)
Definition manifoldContact (ref_entity alt_entity : Entity)
    (manifold : Manifold) : Contact :=
  {| ref := ref_entity;
     alt := alt_entity;
     points := [ contactPoints manifold !!! 0%nat;
                 contactPoints manifold !!! 1%nat;
                 contactPoints manifold !!! 2%nat;
                 contactPoints manifold !!! 3%nat ];
     numPoints := numContactPoints manifold;
     normal := manifold_normal manifold;
     lambdaN := F32.zero |}.

(** [case NarrowphaseTest::HullHull] *)
Definition narrowphaseHullHull (ctx : Context)
    (a_entity b_entity : Entity) (a_prim b_prim : CollisionPrimitive)
    (a_pos b_pos : Vector3) : outcome Context :=
  let '(collisionMeshA, collisionMeshB) :=
    hullHullMeshes ctx a_entity b_entity a_prim b_prim a_pos b_pos in
  let manifold := doSAT collisionMeshA collisionMeshB in
  if 0 <? numContactPoints manifold then
    ctx_addContacts ctx
      [ manifoldContact
          (if aIsReference manifold then a_entity else b_entity)
          (if aIsReference manifold then b_entity else a_entity)
          manifold ]
  else Done ctx.

(** [case NarrowphaseTest::HullPlane] *)
Definition narrowphaseHullPlane (ctx : Context)
    (a_entity b_entity : Entity) (a_prim b_prim : CollisionPrimitive)
    (a_pos b_pos : Vector3) : outcome Context :=
  let hEdgeA := hull_halfEdgeMesh a_prim in
  let collisionMeshA := buildCollisionMesh ctx hEdgeA a_entity a_pos in
  let b_rot := ctx_Rotation ctx !!! b_entity in
  let base_normal := mkVector3 F32.zero F32.zero F32.one in
  let plane_normal := rotateVec b_rot base_normal in
  let plane := {| plane_point := b_pos; plane_normal := plane_normal |} in
  let manifold := doSATPlane plane collisionMeshA in
  if 0 <? numContactPoints manifold then
    ctx_addContacts ctx [ manifoldContact b_entity a_entity manifold ]
  else Done ctx.

Definition runNarrowphase (ctx : Context)
    (candidate_collision : CandidateCollision) : outcome Context :=
  let a_obj := ctx_ObjectID ctx !!! cand_a candidate_collision in
  let b_obj := ctx_ObjectID ctx !!! cand_b candidate_collision in
  let obj_mgr := ctx_objMgr ctx in
  let a_prim := primitives obj_mgr !!! a_obj in
  let b_prim := primitives obj_mgr !!! b_obj in
  let raw_type_a := raw_type a_prim in
  let raw_type_b := raw_type b_prim in
  let a_entity := cand_a candidate_collision in
  let b_entity := cand_b candidate_collision in
  let '(raw_type_a, raw_type_b, a_entity, b_entity, a_prim, b_prim) :=
    if raw_type_b <? raw_type_a
    then (raw_type_b, raw_type_a, b_entity, a_entity, b_prim, a_prim)
    else (raw_type_a, raw_type_b, a_entity, b_entity, a_prim, b_prim) in
  let test_type := Z.lor raw_type_a raw_type_b in
  let a_pos := ctx_Position ctx !!! a_entity in
  let b_pos := ctx_Position ctx !!! b_entity in
  if test_type =? SphereSphere then
    narrowphaseSphereSphere ctx candidate_collision a_entity b_entity
                            a_prim b_prim a_pos b_pos
  else if test_type =? PlanePlane then
    Done ctx                      (* planes must be static: nothing is done *)
  else if test_type =? SpherePlane then
    narrowphaseSpherePlane ctx a_entity b_entity a_prim b_prim a_pos b_pos
  else if test_type =? HullHull then
    narrowphaseHullHull ctx a_entity b_entity a_prim b_prim a_pos b_pos
  else if test_type =? SphereHull then
    AssertFailed                  (* [assert(false)] *)
  else if test_type =? HullPlane then
    narrowphaseHullPlane ctx a_entity b_entity a_prim b_prim a_pos b_pos
  else Unreachable.

(** ** Solver ([namespace solver]) *)

Definition multDiag (diag v : Vector3) : Vector3 :=
  mkVector3 (v3_x diag * v3_x v)%f32
            (v3_y diag * v3_y v)%f32
            (v3_z diag * v3_z v)%f32.

(** The components [substepRigidBodies] receives by reference, after the
    call. *)
Record SubstepOut := mkSubstepOut {
  out_pos : Vector3;
  out_rot : Quat;
  out_vel : Velocity;
  out_prev_state : SubstepPrevState;
  out_start_state : SubstepStartState;
  out_vel_state : SubstepVelocityState;
}.

Definition substepRigidBodies (ctx : Context) (pos : Vector3) (rot : Quat)
    (vel : Velocity) (obj_id : nat) : SubstepOut :=
  let solver := ctx_solver ctx in
  let obj_mgr := ctx_objMgr ctx in
  let metadata := metadata obj_mgr !!! obj_id in
  let inv_I := invInertiaTensor metadata in
  let inv_m := invMass metadata in
  let h := h solver in
  let cur_position := pos in
  let cur_rotation := rot in
  let prev_state :=
    {| prevPosition := cur_position; prevRotation := cur_rotation |} in
  let linear_velocity := linear vel in
  let angular_velocity := angular vel in
  let vel_state :=
    {| prevLinear := linear_velocity; prevAngular := angular_velocity |} in
  let linear_velocity :=
    if (F32.zero <? inv_m)%f32
    then v3_add linear_velocity (v3_scale h (g solver))
    else linear_velocity in
  let cur_position := v3_add cur_position (v3_scale h linear_velocity) in
  let I :=
    mkVector3
      (if (v3_x inv_I =? F32.zero)%f32 then F32.zero else F32.one / v3_x inv_I)%f32
      (if (v3_y inv_I =? F32.zero)%f32 then F32.zero else F32.one / v3_y inv_I)%f32
      (if (v3_z inv_I =? F32.zero)%f32 then F32.zero else F32.one / v3_z inv_I)%f32 in
  let torque_ext := mkVector3 F32.zero F32.zero F32.zero in
  let I_angular := multDiag I angular_velocity in
  let angular_velocity :=
    v3_add angular_velocity
      (v3_scale h
         (multDiag inv_I
            (v3_sub torque_ext (cross angular_velocity I_angular)))) in
  let vel := {| linear := linear vel; angular := angular_velocity |} in
  let angular_quat :=
    fromAngularVec (v3_scale (F32.half * h)%f32 angular_velocity) in
  let cur_rotation := quat_add cur_rotation (quat_mul angular_quat cur_rotation) in
  let cur_rotation := quat_normalize cur_rotation in
  {| out_pos := cur_position;
     out_rot := cur_rotation;
     out_vel := vel;
     out_prev_state := prev_state;
     out_start_state :=
       {| startPosition := cur_position; startRotation := cur_rotation |};
     out_vel_state := vel_state |}.

Definition generalizedInverseMass (local : Vector3) (inv_m : float)
    (inv_I n : Vector3) : float :=
  let lxn := cross local n in
  (inv_m + dot (multDiag inv_I lxn) lxn)%f32.

(** The in/out arguments of the positional update: [x1 x2 q1 q2] and the
    multiplier [lambda]. *)
Record PosState := mkPosState {
  ps_x1 : Vector3;
  ps_x2 : Vector3;
  ps_q1 : Quat;
  ps_q2 : Quat;
}.

Definition applyPositionalUpdate (st : PosState) (r1 r2 : Vector3)
    (inv_m1 inv_m2 : float) (inv_I1 inv_I2 : Vector3)
    (n_world n1 n2 : Vector3) (c alpha_tilde lambda : float)
    (lambda_check : float -> bool) : PosState * float :=
  let w1 := generalizedInverseMass r1 inv_m1 inv_I1 n1 in
  let w2 := generalizedInverseMass r2 inv_m2 inv_I2 n2 in
  let delta_lambda :=
    ((- c - alpha_tilde * lambda) / (w1 + w2 + alpha_tilde))%f32 in
  let lambda := (lambda + delta_lambda)%f32 in
  if lambda_check lambda then (st, lambda)
  else
    let p := v3_scale delta_lambda n_world in
    let p_local1 := v3_scale delta_lambda n1 in
    let p_local2 := v3_scale delta_lambda n2 in
    let x1 := v3_add (ps_x1 st) (v3_mulf p inv_m1) in
    let x2 := v3_sub (ps_x2 st) (v3_mulf p inv_m2) in
    let r1_x_p := cross r1 p_local1 in
    let r2_x_p := cross r2 p_local2 in
    let q1 :=
      quat_add (ps_q1 st)
        (quat_mul (fromAngularVec (v3_scale F32.half (multDiag inv_I1 r1_x_p)))
                  (ps_q1 st)) in
    let q2 :=
      quat_sub (ps_q2 st)
        (quat_mul (fromAngularVec (v3_scale F32.half (multDiag inv_I2 r2_x_p)))
                  (ps_q2 st)) in
    let q1 := quat_normalize q1 in
    let q2 := quat_normalize q2 in
    ({| ps_x1 := x1; ps_x2 := x2; ps_q1 := q1; ps_q2 := q2 |}, lambda).

(** [handleContactConstraint]; the result carries [lambda_n] and
    [lambda_t] next to the positional state. *)
Definition handleContactConstraint (st : PosState)
    (prev1 prev2 : SubstepPrevState) (inv_m1 inv_m2 : float)
    (inv_I1 inv_I2 : Vector3) (mu_s1 mu_s2 : float) (r1 r2 : Vector3)
    (n_world : Vector3) (lambda_n lambda_t : float)
  : PosState * float * float :=
  let p1 := v3_add (rotateVec (ps_q1 st) r1) (ps_x1 st) in
  let p2 := v3_add (rotateVec (ps_q2 st) r2) (ps_x2 st) in
  let d := dot (v3_sub p1 p2) n_world in
  if (d <=? F32.zero)%f32 then (st, lambda_n, lambda_t)
  else
    let x1_prev := prevPosition prev1 in
    let q1_prev := prevRotation prev1 in
    let x2_prev := prevPosition prev2 in
    let q2_prev := prevRotation prev2 in
    let p1_hat := v3_add (rotateVec q1_prev r1) x1_prev in
    let p2_hat := v3_add (rotateVec q2_prev r2) x2_prev in
    let n_local1 := rotateVec (quat_inv (ps_q1 st)) n_world in
    let n_local2 := rotateVec (quat_inv (ps_q2 st)) n_world in
    let '(st, lambda_n) :=
      applyPositionalUpdate st r1 r2 inv_m1 inv_m2 inv_I1 inv_I2
        n_world n_local1 n_local2 d F32.zero lambda_n (fun _ => false) in
    let delta_p := v3_sub (v3_sub p1 p1_hat) (v3_sub p2 p2_hat) in
    let delta_p_t :=
      v3_sub delta_p (v3_scale (dot delta_p n_world) n_world) in
    let tangential_magnitude := v3_length delta_p_t in
    if (F32.zero <? tangential_magnitude)%f32 then
      let tangent_dir := v3_div delta_p_t tangential_magnitude in
      let tangent_dir_local1 := rotateVec (quat_inv (ps_q1 st)) tangent_dir in
      let tangent_dir_local2 := rotateVec (quat_inv (ps_q2 st)) tangent_dir in
      let mu_s := (F32.half * (mu_s1 + mu_s2))%f32 in
      let lambda_threshold := (lambda_n * mu_s)%f32 in
      let '(st, lambda_t) :=
        applyPositionalUpdate st r1 r2 inv_m1 inv_m2 inv_I1 inv_I2
          tangent_dir tangent_dir_local1 tangent_dir_local2
          tangential_magnitude F32.zero lambda_t
          (fun lambda => (lambda_threshold <=? lambda)%f32) in
      (st, lambda_n, lambda_t)
    else (st, lambda_n, lambda_t).

Definition getLocalSpaceContacts (start1 start2 : SubstepStartState)
    (contact : Contact) (point_idx : nat) : Vector3 * Vector3 :=
  let contact1 := v4_xyz (points contact !!! point_idx) in
  let penetration_depth := v4_w (points contact !!! point_idx) in
  let contact2 := v3_sub contact1 (v3_mulf (normal contact) penetration_depth) in
  let r1 :=
    rotateVec (quat_inv (startRotation start1))
              (v3_sub contact1 (startPosition start1)) in
  let r2 :=
    rotateVec (quat_inv (startRotation start2))
              (v3_sub contact2 (startPosition start2)) in
  (r1, r2).

Definition set_lambdaN (contact : Contact) (l : float) : Contact :=
  mkContact (ref contact) (alt contact) (points contact) (numPoints contact)
            (normal contact) l.

(** One iteration of the unrolled loop of [handleContact]
    ([if (i >= contact.numPoints) continue;] and the call of
    [handleContactConstraint]). *)
Definition handleContactPoint (contact : Contact)
    (prev1 prev2 : SubstepPrevState) (start1 start2 : SubstepStartState)
    (metadata1 metadata2 : RigidBodyMetadata)
    (acc : PosState * float * float) (i : nat) : PosState * float * float :=
  let '(st, lambda_n, lambda_t) := acc in
  if numPoints contact <=? Z.of_nat i then acc
  else
    let '(r1, r2) := getLocalSpaceContacts start1 start2 contact i in
    handleContactConstraint st prev1 prev2
      (invMass metadata1) (invMass metadata2)
      (invInertiaTensor metadata1) (invInertiaTensor metadata2)
      (muS metadata1) (muS metadata2) r1 r2 (normal contact)
      lambda_n lambda_t.

Definition handleContact (ctx : Context) (obj_mgr : ObjectManager)
    (contact : Contact) : Context * Contact :=
  let prev1 := ctx_PrevState ctx !!! ref contact in
  let start1 := ctx_StartState ctx !!! ref contact in
  let obj_id1 := ctx_ObjectID ctx !!! ref contact in
  let metadata1 := metadata obj_mgr !!! obj_id1 in
  let prev2 := ctx_PrevState ctx !!! alt contact in
  let start2 := ctx_StartState ctx !!! alt contact in
  let obj_id2 := ctx_ObjectID ctx !!! alt contact in
  let metadata2 := metadata obj_mgr !!! obj_id2 in
  let lambda_n := F32.zero in
  let lambda_t := F32.zero in
  let p1 := ctx_Position ctx !!! ref contact in
  let p2 := ctx_Position ctx !!! alt contact in
  let q1 := ctx_Rotation ctx !!! ref contact in
  let q2 := ctx_Rotation ctx !!! alt contact in
  let '(st, lambda_n, lambda_t) :=
    fold_left
      (handleContactPoint contact prev1 prev2 start1 start2
                          metadata1 metadata2)
      [0; 1; 2; 3]%nat
      ({| ps_x1 := p1; ps_x2 := p2; ps_q1 := q1; ps_q2 := q2 |},
       lambda_n, lambda_t) in
  let ctx := set_Position ctx (ref contact) (ps_x1 st) in
  let ctx := set_Position ctx (alt contact) (ps_x2 st) in
  let ctx := set_Rotation ctx (ref contact) (ps_q1 st) in
  let ctx := set_Rotation ctx (alt contact) (ps_q2 st) in
  (ctx, set_lambdaN contact lambda_n).

(** [solvePositions]: serial over [contacts[0 .. numContacts - 1]]; each
    contact is copied out, solved, and its [lambdaN] stored back. *)
Definition solvePositions (ctx : Context) : Context :=
  let obj_mgr := ctx_objMgr ctx in
  let num_contacts := numContacts (ctx_solver ctx) in
  fold_left
    (fun ctx i =>
       let contact := contacts (ctx_solver ctx) !!! i in
       let '(ctx, contact) := handleContact ctx obj_mgr contact in
       let solver := ctx_solver ctx in
       set_solver ctx
         (set_contacts solver
            (<[i := set_lambdaN (contacts solver !!! i) (lambdaN contact)]>
               (contacts solver))))
    (seq 0 (Z.to_nat num_contacts)) ctx.

Definition setVelocities (ctx : Context) (pos : Vector3) (rot : Quat)
    (prev_state : SubstepPrevState) (vel : Velocity) : Velocity :=
  let solver := ctx_solver ctx in
  let h := h solver in
  let vel_linear := v3_div (v3_sub pos (prevPosition prev_state)) h in
  let cur_rotation := rot in
  let prev_rotation := prevRotation prev_state in
  let delta_q := quat_mul cur_rotation (quat_inv prev_rotation) in
  let new_angular :=
    v3_scale (F32.two / h)%f32
             (mkVector3 (q_x delta_q) (q_y delta_q) (q_z delta_q)) in
  {| linear := vel_linear;
     angular := if (F32.zero <? q_w delta_q)%f32
                then new_angular else v3_neg new_angular |}.

(** The in/out arguments of the velocity update. *)
Record VelState := mkVelState {
  vs_v1 : Vector3;
  vs_v2 : Vector3;
  vs_omega1 : Vector3;
  vs_omega2 : Vector3;
}.

Definition applyVelocityUpdate (st : VelState) (r1 r2 : Vector3)
    (inv_m1 inv_m2 : float) (inv_I1 inv_I2 : Vector3)
    (delta_v_world delta_v_l1 delta_v_l2 : Vector3)
    (delta_v_magnitude : float) : VelState :=
  let w1 := generalizedInverseMass r1 inv_m1 inv_I1 delta_v_l1 in
  let w2 := generalizedInverseMass r2 inv_m2 inv_I2 delta_v_l2 in
  let delta_v_magnitude := (delta_v_magnitude * (F32.one / (w1 + w2)))%f32 in
  {| vs_v1 :=
       v3_add (vs_v1 st)
              (v3_mulf (v3_mulf delta_v_world delta_v_magnitude) inv_m1);
     vs_v2 :=
       v3_sub (vs_v2 st)
              (v3_mulf (v3_mulf delta_v_world delta_v_magnitude) inv_m2);
     vs_omega1 :=
       v3_add (vs_omega1 st)
              (multDiag inv_I1
                 (cross r1 (v3_mulf delta_v_l1 delta_v_magnitude)));
     vs_omega2 :=
       v3_sub (vs_omega2 st)
              (multDiag inv_I2
                 (cross r2 (v3_mulf delta_v_l2 delta_v_magnitude))) |}.

(** The relative velocity of the two bodies at the contact point,
    [(v1 + cross(omega1, r1)) - (v2 + cross(omega2, r2))]. *)
Definition relativeVelocity (v1 omega1 v2 omega2 r1 r2 : Vector3) : Vector3 :=
  v3_sub (v3_add v1 (cross omega1 r1)) (v3_add v2 (cross omega2 r2)).

(** The dynamic-friction part of one loop iteration of
    [updateVelocityFromContact]. *)
Definition frictionUpdate (st : VelState) (q1 q2 : Quat) (r1 r2 : Vector3)
    (metadata1 metadata2 : RigidBodyMetadata) (vt : Vector3)
    (dynamic_friction_magnitude : float) : VelState :=
  let vt_len := v3_length vt in
  if negb (vt_len =? F32.zero)%f32
     && negb (dynamic_friction_magnitude =? F32.zero)%f32
  then
    let corrected_magnitude :=
      (- F32.fminf dynamic_friction_magnitude vt_len)%f32 in
    let delta_world := v3_div vt vt_len in
    let delta_local1 := rotateVec (quat_inv q1) delta_world in
    let delta_local2 := rotateVec (quat_inv q2) delta_world in
    applyVelocityUpdate st r1 r2 (invMass metadata1) (invMass metadata2)
      (invInertiaTensor metadata1) (invInertiaTensor metadata2)
      delta_world delta_local1 delta_local2 corrected_magnitude
  else st.

(** [float e = 0.4; if (fabsf(vn_bar) <= restitution_threshold) e = 0.f;] *)
Definition restitutionCoefficient (vn_bar restitution_threshold : float)
  : float :=
  let e := F32.lit_0_4 in
  if (F32.fabsf vn_bar <=? restitution_threshold)%f32 then F32.zero else e.

(** One iteration of the unrolled loop of [updateVelocityFromContact]. *)
Definition updateVelocityPoint (contact : Contact) (q1 q2 : Quat)
    (start1 start2 : SubstepStartState)
    (prev_vel1 prev_vel2 : SubstepVelocityState)
    (metadata1 metadata2 : RigidBodyMetadata)
    (dynamic_friction_magnitude restitution_threshold : float)
    (st : VelState) (i : nat) : VelState :=
  if numPoints contact <=? Z.of_nat i then st
  else
    let '(r1, r2) := getLocalSpaceContacts start1 start2 contact i in
    let n := normal contact in
    let v :=
      relativeVelocity (vs_v1 st) (vs_omega1 st) (vs_v2 st) (vs_omega2 st)
                       r1 r2 in
    let vn := dot n v in
    let vt := v3_sub v (v3_mulf n vn) in
    let st :=
      frictionUpdate st q1 q2 r1 r2 metadata1 metadata2 vt
                     dynamic_friction_magnitude in
    let v_bar :=
      relativeVelocity (prevLinear prev_vel1) (prevAngular prev_vel1)
                       (prevLinear prev_vel2) (prevAngular prev_vel2) r1 r2 in
    let vn_bar := dot n v_bar in
    let e := restitutionCoefficient vn_bar restitution_threshold in
    let restitution_magnitude :=
      (F32.fminf (- e * vn_bar) F32.zero - vn)%f32 in
    let n_local1 := rotateVec (quat_inv q1) n in
    let n_local2 := rotateVec (quat_inv q2) n in
    applyVelocityUpdate st r1 r2 (invMass metadata1) (invMass metadata2)
      (invInertiaTensor metadata1) (invInertiaTensor metadata2)
      n n_local1 n_local2 restitution_magnitude.

Definition updateVelocityFromContact (ctx : Context) (obj_mgr : ObjectManager)
    (contact : Contact) (h restitution_threshold : float) : Context :=
  let q1 := ctx_Rotation ctx !!! ref contact in
  let start1 := ctx_StartState ctx !!! ref contact in
  let prev_vel1 := ctx_VelocityState ctx !!! ref contact in
  let obj_id1 := ctx_ObjectID ctx !!! ref contact in
  let metadata1 := metadata obj_mgr !!! obj_id1 in
  let q2 := ctx_Rotation ctx !!! alt contact in
  let start2 := ctx_StartState ctx !!! alt contact in
  let prev_vel2 := ctx_VelocityState ctx !!! alt contact in
  let obj_id2 := ctx_ObjectID ctx !!! alt contact in
  let metadata2 := metadata obj_mgr !!! obj_id2 in
  let vel1 := ctx_Velocity ctx !!! ref contact in
  let vel2 := ctx_Velocity ctx !!! alt contact in
  let mu_d := (F32.half * (muD metadata1 + muD metadata2))%f32 in
  let dynamic_friction_magnitude :=
    (mu_d * F32.fabsf (lambdaN contact) / h)%f32 in
  let st :=
    fold_left
      (updateVelocityPoint contact q1 q2 start1 start2 prev_vel1 prev_vel2
         metadata1 metadata2 dynamic_friction_magnitude restitution_threshold)
      [0; 1; 2; 3]%nat
      {| vs_v1 := linear vel1; vs_v2 := linear vel2;
         vs_omega1 := angular vel1; vs_omega2 := angular vel2 |} in
  let ctx :=
    set_Velocity ctx (ref contact)
      {| linear := vs_v1 st; angular := vs_omega1 st |} in
  set_Velocity ctx (alt contact)
    {| linear := vs_v2 st; angular := vs_omega2 st |}.

Definition solveVelocities (ctx : Context) : Context :=
  let obj_mgr := ctx_objMgr ctx in
  let solver := ctx_solver ctx in
  let num_contacts := numContacts solver in
  let ctx :=
    fold_left
      (fun ctx i =>
         updateVelocityFromContact ctx obj_mgr (contacts solver !!! i)
           (h solver) (restitutionThreshold solver))
      (seq 0 (Z.to_nat num_contacts)) ctx in
  set_solver ctx (set_numContacts (ctx_solver ctx) 0).

End Physics.

(** ** A reference implementation of the parameters

    Used to evaluate the embedding on concrete worlds. *)

Module Ref.

(** Modelled from the spec: [madrona/math.hpp] is missing; these are the
    textbook formulas for the operations the spec names (dot and cross
    product, Euclidean length, Hamilton product, conjugate as inverse of
    a unit quaternion, rotation of a vector by a unit quaternion, the
    pure quaternion of an angular vector), summed left to right. *)
Definition dot (a b : Vector3) : float :=
  (v3_x a * v3_x b + v3_y a * v3_y b + v3_z a * v3_z b)%f32.
Definition cross (a b : Vector3) : Vector3 :=
  mkVector3 (v3_y a * v3_z b - v3_z a * v3_y b)%f32
            (v3_z a * v3_x b - v3_x a * v3_z b)%f32
            (v3_x a * v3_y b - v3_y a * v3_x b)%f32.
Definition vlength (v : Vector3) : float := F32.sqrt (dot v v).
Definition vdiv (v : Vector3) (s : float) : Vector3 :=
  mkVector3 (v3_x v / s)%f32 (v3_y v / s)%f32 (v3_z v / s)%f32.

Definition qinv (q : Quat) : Quat :=
  mkQuat (q_w q) (- q_x q)%f32 (- q_y q)%f32 (- q_z q)%f32.
Definition qmul (a b : Quat) : Quat :=
  mkQuat
    (q_w a * q_w b - q_x a * q_x b - q_y a * q_y b - q_z a * q_z b)%f32
    (q_w a * q_x b + q_x a * q_w b + q_y a * q_z b - q_z a * q_y b)%f32
    (q_w a * q_y b - q_x a * q_z b + q_y a * q_w b + q_z a * q_x b)%f32
    (q_w a * q_z b + q_x a * q_y b - q_y a * q_x b + q_z a * q_w b)%f32.
Definition qadd (a b : Quat) : Quat :=
  mkQuat (q_w a + q_w b)%f32 (q_x a + q_x b)%f32
         (q_y a + q_y b)%f32 (q_z a + q_z b)%f32.
Definition qsub (a b : Quat) : Quat :=
  mkQuat (q_w a - q_w b)%f32 (q_x a - q_x b)%f32
         (q_y a - q_y b)%f32 (q_z a - q_z b)%f32.
Definition normalize (q : Quat) : Quat :=
  let n :=
    F32.sqrt (q_w q * q_w q + q_x q * q_x q + q_y q * q_y q
              + q_z q * q_z q)%f32 in
  mkQuat (q_w q / n)%f32 (q_x q / n)%f32 (q_y q / n)%f32 (q_z q / n)%f32.
Definition fromAngularVec (v : Vector3) : Quat :=
  mkQuat F32.zero (v3_x v) (v3_y v) (v3_z v).
Definition rotateVec (q : Quat) (v : Vector3) : Vector3 :=
  let pure := mkVector3 (q_x q) (q_y q) (q_z q) in
  let scalar := q_w q in
  v3_add
    (v3_add (v3_scale (F32.two * dot pure v)%f32 pure)
            (v3_scale (F32.two * scalar * scalar - F32.one)%f32 v))
    (v3_scale (F32.two * scalar)%f32 (cross pure v)).

#[export] Instance math : MathOps :=
  Build_MathOps vdiv vlength dot cross rotateVec qinv qmul qadd qsub
                normalize fromAngularVec.

(** A stand-in for the missing SAT routines: it reports the first (up to
    four) world-space vertices of the mesh it is given last as contact
    points of depth zero. *)
Definition vertexManifold (mesh : CollisionMesh) : Manifold :=
  {| contactPoints :=
       map (fun v => makeVector4 v F32.zero) (take 4 (vertices mesh));
     numContactPoints := Z.min 4 (vertexCount mesh);
     manifold_normal := mkVector3 F32.zero F32.zero F32.one;
     aIsReference := true |}.

#[export] Instance sat : SATOps :=
  {| doSAT := fun _ B => vertexManifold B;
     doSATPlane := fun _ A => vertexManifold A |}.

(** Small exact constants. *)
Definition flt (n : Z) : float := F32.of_Z n.
Definition vec (x y z : Z) : Vector3 := mkVector3 (flt x) (flt y) (flt z).
Definition qid : Quat := mkQuat F32.one F32.zero F32.zero F32.zero.

End Ref.

(** ** Vocabulary of the statements *)

(** What the constructor establishes and every in-range append keeps: the
    buffer has [maxContacts] slots, the count is not negative, and indices
    fit [int32_t]. *)
Definition solver_wf (s : SolverData) : Prop :=
  Z.of_nat (length (contacts s)) = maxContacts s
  /\ 0 <= numContacts s
  /\ maxContacts s < 2 ^ 31.

(** The solver after one contact was appended at the current count. *)
Definition push_contact (s : SolverData) (c : Contact) : SolverData :=
  set_contacts (set_numContacts s (numContacts s + 1))
               (<[Z.to_nat (numContacts s) := c]> (contacts s)).

(** A sequence of [addContacts] calls, one per span. *)
Fixpoint addContactsSeq (s : SolverData) (spans : list (list Contact))
  : outcome SolverData :=
  match spans with
  | [] => Done s
  | span :: rest => let* s := addContacts s span in addContactsSeq s rest
  end.

Definition total_size (spans : list (list Contact)) : Z :=
  Z.of_nat (length (concat spans)).

(** The primitive the object catalogue holds for an entity. *)
Definition prim_of (ctx : Context) (e : Entity) : CollisionPrimitive :=
  primitives (ctx_objMgr ctx) !!! (ctx_ObjectID ctx !!! e).

(** The context after one contact was appended to the solver's buffer. *)
Definition ctx_push (ctx : Context) (c : Contact) : Context :=
  set_solver ctx (push_contact (ctx_solver ctx) c).










(** The solver is untouched, or one contact satisfying [P] was stored into
    a slot of the buffer and counted. *)
Definition appended_with (P : Contact -> Prop) (ctx ctx' : Context) : Prop :=
  ctx_solver ctx' = ctx_solver ctx
  \/ exists (i : nat) (c : Contact),
       (i < length (contacts (ctx_solver ctx)))%nat
       /\ contacts (ctx_solver ctx') = <[i := c]> (contacts (ctx_solver ctx))
       /\ numContacts (ctx_solver ctx') = numContacts (ctx_solver ctx) + 1
       /\ P c.

(** A coordinate that kept its value: the same number, or a zero that
    stayed a zero (possibly of the other sign). *)
Definition coord_kept (x x' : float) : Prop :=
  x' = x \/ (F32.is_zero x = true /\ F32.is_zero x' = true).

(** ... or that was turned into a NaN. *)
Definition coord_kept_or_nan (x x' : float) : Prop :=
  x' = S754_nan \/ coord_kept x x'.

Definition v3_all2 (R : float -> float -> Prop) (a b : Vector3) : Prop :=
  R (v3_x a) (v3_x b) /\ R (v3_y a) (v3_y b) /\ R (v3_z a) (v3_z b).

Definition v3_is_zero (v : Vector3) : bool :=
  F32.is_zero (v3_x v) && F32.is_zero (v3_y v) && F32.is_zero (v3_z v).

(** The metadata the object catalogue holds for an entity. *)
Definition metadata_of (ctx : Context) (obj_mgr : ObjectManager) (e : Entity)
  : RigidBodyMetadata :=
  metadata obj_mgr !!! (ctx_ObjectID ctx !!! e).


(** ** The velocity solve as the specification words it *)

(** The restitution coefficient as the specification states it: [0.4]
    when [|vn_bar| > threshold], [0] otherwise. *)
Definition stated_restitution (vn_bar threshold : float) : float :=
  if (threshold <? F32.fabsf vn_bar)%f32 then F32.lit_0_4 else F32.zero.

(** The coefficient as amended: [0] when [|vn_bar| <= threshold], [0.4]
    otherwise, that is also when [vn_bar] or the threshold is a NaN. *)
Definition amended_restitution (vn_bar threshold : float) : float :=
  if F32.is_nan vn_bar || F32.is_nan threshold then F32.lit_0_4
  else stated_restitution vn_bar threshold.

(** The solver is the one the constructor built from these arguments, up
    to the contact buffer and the count. *)
Definition solver_built `{MathOps} (max_contacts : Z) (delta_t : float)
    (num_substeps : Z) (gravity : Vector3) (s : SolverData) : Prop :=
  exists (cs : list Contact) (n : Z),
    s = set_contacts
          (set_numContacts
             (SolverData_init max_contacts delta_t num_substeps gravity) n)
          cs.

(** The local points [r1], [r2] of the point [i] of a contact, from the
    [SubstepStartState] of [ref] and [alt] as [ctx] holds them. *)
Definition local_points `{MathOps} (ctx : Context) (contact : Contact)
    (i : nat) : Vector3 * Vector3 :=
  getLocalSpaceContacts (ctx_StartState ctx !!! ref contact)
                        (ctx_StartState ctx !!! alt contact) contact i.

(** [vn]: the normal relative velocity of the velocities [st] at the
    point [i]. *)
Definition vn_of `{MathOps} (ctx : Context) (contact : Contact) (i : nat)
    (st : VelState) : float :=
  let '(r1, r2) := local_points ctx contact i in
  dot (normal contact)
      (relativeVelocity (vs_v1 st) (vs_omega1 st) (vs_v2 st) (vs_omega2 st)
                        r1 r2).

(** [vn_bar]: the normal relative velocity before the substep, from the
    [SubstepVelocityState] of [ref] and [alt] as [ctx] holds them. *)
Definition vn_bar_of `{MathOps} (ctx : Context) (contact : Contact)
    (i : nat) : float :=
  let '(r1, r2) := local_points ctx contact i in
  let prev_vel1 := ctx_VelocityState ctx !!! ref contact in
  let prev_vel2 := ctx_VelocityState ctx !!! alt contact in
  dot (normal contact)
      (relativeVelocity (prevLinear prev_vel1) (prevAngular prev_vel1)
                        (prevLinear prev_vel2) (prevAngular prev_vel2)
                        r1 r2).

(** The dynamic-friction step at the point [i], with the rotations and
    the metadata of [ref] and [alt] as [ctx] holds them. *)
Definition frictionStep `{MathOps} (ctx : Context) (contact : Contact)
    (h : float) (i : nat) (st : VelState) : VelState :=
  let '(r1, r2) := local_points ctx contact i in
  let n := normal contact in
  let metadata1 := metadata_of ctx (ctx_objMgr ctx) (ref contact) in
  let metadata2 := metadata_of ctx (ctx_objMgr ctx) (alt contact) in
  let v :=
    relativeVelocity (vs_v1 st) (vs_omega1 st) (vs_v2 st) (vs_omega2 st)
                     r1 r2 in
  let vn := dot n v in
  let mu_d := (F32.half * (muD metadata1 + muD metadata2))%f32 in
  frictionUpdate st (ctx_Rotation ctx !!! ref contact)
    (ctx_Rotation ctx !!! alt contact) r1 r2 metadata1 metadata2
    (v3_sub v (v3_mulf n vn))
    (mu_d * F32.fabsf (lambdaN contact) / h)%f32.

(** An impulse of the given magnitude along the contact normal at the
    point [i], applied to the velocities [st]. *)
Definition normalImpulse `{MathOps} (ctx : Context) (contact : Contact)
    (i : nat) (magnitude : float) (st : VelState) : VelState :=
  let '(r1, r2) := local_points ctx contact i in
  let n := normal contact in
  let metadata1 := metadata_of ctx (ctx_objMgr ctx) (ref contact) in
  let metadata2 := metadata_of ctx (ctx_objMgr ctx) (alt contact) in
  applyVelocityUpdate st r1 r2 (invMass metadata1) (invMass metadata2)
    (invInertiaTensor metadata1) (invInertiaTensor metadata2)
    n
    (rotateVec (quat_inv (ctx_Rotation ctx !!! ref contact)) n)
    (rotateVec (quat_inv (ctx_Rotation ctx !!! alt contact)) n)
    magnitude.

(** One contact point: friction, then the normal impulse of magnitude
    [min(-e * vn_bar, 0) - vn], where [vn] is taken before the friction
    step and [e] is the coefficient [coef vn_bar threshold]. *)
Definition velocityPoint `{MathOps} (coef : float -> float -> float)
    (ctx : Context) (contact : Contact) (h threshold : float)
    (st : VelState) (i : nat) : VelState :=
  if Z.of_nat i <? numPoints contact then
    let vn := vn_of ctx contact i st in
    let vn_bar := vn_bar_of ctx contact i in
    let e := coef vn_bar threshold in
    normalImpulse ctx contact i
      (F32.fminf (- e * vn_bar) F32.zero - vn)%f32
      (frictionStep ctx contact h i st)
  else st.

(** One contact: its points in order, on the velocities [ref] and [alt]
    have in [cur]; everything else is read from [ctx], the state at the
    entry of the solve. *)
Definition velocityContact `{MathOps} (coef : float -> float -> float)
    (ctx cur : Context) (contact : Contact) (h threshold : float) : Context :=
  let vel1 := ctx_Velocity cur !!! ref contact in
  let vel2 := ctx_Velocity cur !!! alt contact in
  let st :=
    fold_left (velocityPoint coef ctx contact h threshold) [0; 1; 2; 3]%nat
      {| vs_v1 := linear vel1; vs_v2 := linear vel2;
         vs_omega1 := angular vel1; vs_omega2 := angular vel2 |} in
  set_Velocity
    (set_Velocity cur (ref contact)
       {| linear := vs_v1 st; angular := vs_omega1 st |})
    (alt contact) {| linear := vs_v2 st; angular := vs_omega2 st |}.

(** The velocity solve: the counted contacts in order, then the count is
    reset. *)
Definition velocitySolve `{MathOps} (coef : float -> float -> float)
    (ctx : Context) (h threshold : float) : Context :=
  let solver := ctx_solver ctx in
  let cur :=
    fold_left
      (fun cur k =>
         velocityContact coef ctx cur (contacts solver !!! k) h threshold)
      (seq 0 (Z.to_nat (numContacts solver))) ctx in
  set_solver cur (set_numContacts solver 0).

(** ** Concrete worlds *)

Module World.

Import Ref.

(** A solver with a buffer of two contacts, [deltaT = 1], one substep and
    gravity [(0, 0, -10)]. *)
Definition solver2 : SolverData :=
  SolverData_init 2 (flt 1) 1 (vec 0 0 (-10)).

(** The same solver with its first slot taken. *)
Definition solver2_last : SolverData := set_numContacts solver2 1.

Definition body (invm : float) : RigidBodyMetadata :=
  {| invInertiaTensor := vec 1 1 1; invMass := invm;
     muS := F32.half; muD := F32.half |}.
Definition static_body : RigidBodyMetadata :=
  {| invInertiaTensor := vec 0 0 0; invMass := F32.zero;
     muS := F32.half; muD := F32.half |}.

(** Entity 0 and entity 1 carry objects 0 and 1 of the catalogue; both
    have the identity rotation and unit scale and are at rest. *)
Definition world (p0 p1 : Vector3) (prim0 prim1 : CollisionPrimitive)
    (md0 md1 : RigidBodyMetadata) : Context :=
  {| ctx_Position := {[ 0%nat := p0; 1%nat := p1 ]};
     ctx_Rotation := {[ 0%nat := qid; 1%nat := qid ]};
     ctx_Scale := {[ 0%nat := vec 1 1 1; 1%nat := vec 1 1 1 ]};
     ctx_Velocity := {[ 0%nat := mkVelocity (vec 0 0 0) (vec 0 0 0);
                        1%nat := mkVelocity (vec 0 0 0) (vec 0 0 0) ]};
     ctx_ObjectID := {[ 0%nat := 0%nat; 1%nat := 1%nat ]};
     ctx_PrevState := {[ 0%nat := mkSubstepPrevState p0 qid;
                         1%nat := mkSubstepPrevState p1 qid ]};
     ctx_StartState := {[ 0%nat := mkSubstepStartState p0 qid;
                          1%nat := mkSubstepStartState p1 qid ]};
     ctx_VelocityState :=
       {[ 0%nat := mkSubstepVelocityState (vec 0 0 0) (vec 0 0 0);
          1%nat := mkSubstepVelocityState (vec 0 0 0) (vec 0 0 0) ]};
     ctx_solver := solver2;
     ctx_objMgr := {| primitives := [prim0; prim1]; metadata := [md0; md1] |};
     ctx_events := [] |}.

(** A unit sphere whose centre is at height [z] over (or under) the plane
    through the origin with normal [(0, 0, 1)]. *)
Definition spherePlane (z : Z) : Context :=
  world (vec 0 0 z) (vec 0 0 0) (PrimSphere (flt 1)) PrimPlane
        (body (flt 1)) static_body.

(** Two unit spheres whose centres are one unit apart. *)
Definition twoSpheres : Context :=
  world (vec 0 0 0) (vec 1 0 0) (PrimSphere (flt 1)) (PrimSphere (flt 1))
        (body (flt 1)) (body (flt 1)).

(** Hull A has the single vertex [(1, 0, 0)], hull B the two vertices
    [(2, 0, 0)] and [(3, 0, 0)]; A sits at the origin, B at [(5, 0, 0)]. *)
Definition meshA : HalfEdgeMesh := mkHalfEdgeMesh [vec 1 0 0].
Definition meshB : HalfEdgeMesh := mkHalfEdgeMesh [vec 2 0 0; vec 3 0 0].
Definition twoHulls : Context :=
  world (vec 0 0 0) (vec 5 0 0) (PrimHull meshA) (PrimHull meshB)
        (body (flt 1)) (body (flt 1)).

Definition pair01 : CandidateCollision := mkCandidateCollision 0%nat 1%nat.
Definition pair10 : CandidateCollision := mkCandidateCollision 1%nat 0%nat.

End World.

Module Cases.

Import Ref World.

(** Two contacts to append, told apart by their [ref]. *)
Definition contact1 : Contact := set_lambdaN uninit_contact F32.zero.
Definition contact2 : Contact :=
  mkContact 1%nat 0%nat (points uninit_contact) 0 v3_zero F32.zero.

(** The contact of the unit sphere resting with its centre on the plane
    ([spherePlane 0]): [t = 0 < 1]. *)
Definition restingContact : Contact :=
  {| ref := 0%nat; alt := 1%nat;
     points := [ makeVector4 (vec 0 0 1) (flt 0); v4_zero; v4_zero; v4_zero ];
     numPoints := 1;
     normal := vec 0 0 1;
     lambdaN := F32.zero |}.

(** The contact of [twoSpheres]: midpoint [(1/2, 0, 0)], depth 1/2,
    normal [(1, 0, 0)]. *)
Definition midContact : Contact :=
  {| ref := 0%nat; alt := 1%nat;
     points := [ mkVector4 F32.half F32.zero F32.zero F32.half;
                 v4_zero; v4_zero; v4_zero ];
     numPoints := 1;
     normal := vec 1 0 0;
     lambdaN := F32.zero |}.






(** A half turn about the x axis. *)
Definition halfTurn : Quat := mkQuat F32.zero F32.one F32.zero F32.zero.
Definition restPrev : SubstepPrevState := mkSubstepPrevState (vec 0 0 0) qid.
Definition restVelocity : Velocity := mkVelocity (vec 0 0 0) (vec 0 0 0).

(** The velocity state of a body that approached along the normal at
    speed 30 before the substep, above the threshold [2 * 10 * 1 = 20]. *)
Definition approachPrev : SubstepVelocityState :=
  mkSubstepVelocityState (vec 0 0 (-30)) (vec 0 0 0).


(** A solver constructed with [delta_t = 0] and [num_substeps = 0]: [h]
    is [0 / 0], so [h] and the restitution threshold are NaN. *)
Definition nanSolver : SolverData :=
  SolverData_init 2 (flt 0) 0 (vec 0 0 (-10)).

(** The sphere on the plane with the resting contact counted, on
    [nanSolver]; the sphere was moving away from the plane at 5 before the
    substep and moves away at 1 now. *)
Definition reboundWorld : Context :=
  let w := spherePlane 0 in
  mkContext (ctx_Position w) (ctx_Rotation w) (ctx_Scale w)
    (<[0%nat := mkVelocity (vec 0 0 1) (vec 0 0 0)]> (ctx_Velocity w))
    (ctx_ObjectID w) (ctx_PrevState w) (ctx_StartState w)
    (<[0%nat := mkSubstepVelocityState (vec 0 0 5) (vec 0 0 0)]>
       (ctx_VelocityState w))
    (push_contact nanSolver restingContact) (ctx_objMgr w) (ctx_events w).

(** The sphere on the plane with the resting contact counted, on
    [solver2]; the sphere moved towards the plane at 30 before the substep
    and still does. *)
Definition approachWorld : Context :=
  let w := spherePlane 0 in
  mkContext (ctx_Position w) (ctx_Rotation w) (ctx_Scale w)
    (<[0%nat := mkVelocity (vec 0 0 (-30)) (vec 0 0 0)]> (ctx_Velocity w))
    (ctx_ObjectID w) (ctx_PrevState w) (ctx_StartState w)
    (<[0%nat := approachPrev]> (ctx_VelocityState w))
    (push_contact solver2 restingContact) (ctx_objMgr w) (ctx_events w).

End Cases.

(** * Further code of [physics.cpp] *)

(** ** [updateCollisionAABB] *)

Record AABB := mkAABB { pMin : Vector3; pMax : Vector3 }.

#[global] Instance AABB_inhabited : Inhabited AABB :=
  populate (mkAABB v3_zero v3_zero).

(** [v[i]] and the store [v[i] = a] for [i] in 0..2. *)
Definition v3_get (v : Vector3) (i : nat) : float :=
  match i with
  | O => v3_x v
  | S O => v3_y v
  | _ => v3_z v
  end.
Definition v3_set (v : Vector3) (i : nat) (a : float) : Vector3 :=
  match i with
  | O => mkVector3 a (v3_y v) (v3_z v)
  | S O => mkVector3 (v3_x v) a (v3_z v)
  | _ => mkVector3 (v3_x v) (v3_y v) a
  end.

(** [Mat3x3::fromQuat(rot)[i][j]], from the missing [madrona/math.hpp],
    indexed the way the code indexes it. *)
Class MatOps := { rotMatEntry : Quat -> nat -> nat -> float }.

(** The literals [2.f] ([expansion_factor]) and [100.f] ([max_accel]). *)
Definition expansion_factor : float := F32.two.
Definition max_accel : float := Eval vm_compute in F32.of_Z 100.

(** [aabbs] is the array [obj_mgr.aabbs] of the object catalogue. *)
Section CollisionAABB.

Context {R : MatOps}.

(** One round of the inner loop over [j] for the world axis [i]. *)
Definition rotateAxisStep (rot : Quat) (obj_aabb : AABB) (i : nat)
    (world_aabb : AABB) (j : nat) : AABB :=
  let e := (rotMatEntry rot i j * v3_get (pMin obj_aabb) j)%f32 in
  let f := (rotMatEntry rot i j * v3_get (pMax obj_aabb) j)%f32 in
  if (e <? f)%f32 then
    {| pMin := v3_set (pMin world_aabb) i (v3_get (pMin world_aabb) i + e)%f32;
       pMax := v3_set (pMax world_aabb) i (v3_get (pMax world_aabb) i + f)%f32 |}
  else
    {| pMin := v3_set (pMin world_aabb) i (v3_get (pMin world_aabb) i + f)%f32;
       pMax := v3_set (pMax world_aabb) i (v3_get (pMax world_aabb) i + e)%f32 |}.

(** One round of the outer loop: [pMin[i] = pMax[i] = pos[i]], then the
    inner loop. *)
Definition rotateAxis (pos : Vector3) (rot : Quat) (obj_aabb : AABB)
    (world_aabb : AABB) (i : nat) : AABB :=
  let world_aabb :=
    {| pMin := v3_set (pMin world_aabb) i (v3_get pos i);
       pMax := v3_set (pMax world_aabb) i (v3_get pos i) |} in
  fold_left (rotateAxisStep rot obj_aabb i) [0; 1; 2]%nat world_aabb.

(** The first loop nest (RTCD page 86): the box of the rotated object
    box, moved to [pos]. *)
Definition rotatedAABB (pos : Vector3) (rot : Quat) (obj_aabb : AABB) : AABB :=
  fold_left (rotateAxis pos rot obj_aabb) [0; 1; 2]%nat
            (mkAABB v3_zero v3_zero).

(** One round of the velocity expansion loop. *)
Definition expandAxis (linear_velocity : Vector3)
    (delta_t min_pos_change : float) (world_aabb : AABB) (i : nat) : AABB :=
  let pos_delta := (expansion_factor * v3_get linear_velocity i * delta_t)%f32 in
  let min_delta := (pos_delta - min_pos_change)%f32 in
  let max_delta := (pos_delta + min_pos_change)%f32 in
  let world_aabb :=
    if (min_delta <? F32.zero)%f32
    then {| pMin := v3_set (pMin world_aabb) i
                      (v3_get (pMin world_aabb) i + min_delta)%f32;
            pMax := pMax world_aabb |}
    else world_aabb in
  if (F32.zero <? max_delta)%f32
  then {| pMin := pMin world_aabb;
          pMax := v3_set (pMax world_aabb) i
                    (v3_get (pMax world_aabb) i + max_delta)%f32 |}
  else world_aabb.

Definition updateCollisionAABB (ctx : Context) (aabbs : list AABB)
    (pos : Vector3) (rot : Quat) (obj_id : nat) (vel : Velocity) : AABB :=
  let obj_aabb := aabbs !!! obj_id in
  let world_aabb := rotatedAABB pos rot obj_aabb in
  let delta_t := deltaT (ctx_solver ctx) in
  let min_pos_change := (max_accel * delta_t * delta_t)%f32 in
  let linear_velocity := linear vel in
  fold_left (expandAxis linear_velocity delta_t min_pos_change)
            [0; 1; 2]%nat world_aabb.

End CollisionAABB.

(** ** The stages as they run on a world *)

Definition set_PrevState (ctx : Context) (e : Entity) (s : SubstepPrevState)
  : Context :=
  mkContext (ctx_Position ctx) (ctx_Rotation ctx) (ctx_Scale ctx)
    (ctx_Velocity ctx) (ctx_ObjectID ctx) (<[e := s]> (ctx_PrevState ctx))
    (ctx_StartState ctx) (ctx_VelocityState ctx) (ctx_solver ctx)
    (ctx_objMgr ctx) (ctx_events ctx).
Definition set_StartState (ctx : Context) (e : Entity) (s : SubstepStartState)
  : Context :=
  mkContext (ctx_Position ctx) (ctx_Rotation ctx) (ctx_Scale ctx)
    (ctx_Velocity ctx) (ctx_ObjectID ctx) (ctx_PrevState ctx)
    (<[e := s]> (ctx_StartState ctx)) (ctx_VelocityState ctx) (ctx_solver ctx)
    (ctx_objMgr ctx) (ctx_events ctx).
Definition set_VelocityState (ctx : Context) (e : Entity)
    (s : SubstepVelocityState) : Context :=
  mkContext (ctx_Position ctx) (ctx_Rotation ctx) (ctx_Scale ctx)
    (ctx_Velocity ctx) (ctx_ObjectID ctx) (ctx_PrevState ctx)
    (ctx_StartState ctx) (<[e := s]> (ctx_VelocityState ctx)) (ctx_solver ctx)
    (ctx_objMgr ctx) (ctx_events ctx).

Section Stages.

Context {M : MathOps} {G : SATOps}.

(** Modelled from the spec: [ParallelForNode] is missing; a node registered
    for a function and a list of components calls the function once per
    entity with references to that entity's components.  This is the call
    of [substepRigidBodies] for the entity [e]: the six components it
    takes by non-const reference are stored back. *)
Definition substepRigidBodiesNode (ctx : Context) (e : Entity) : Context :=
  let out :=
    substepRigidBodies ctx (ctx_Position ctx !!! e) (ctx_Rotation ctx !!! e)
                       (ctx_Velocity ctx !!! e) (ctx_ObjectID ctx !!! e) in
  let ctx := set_Position ctx e (out_pos out) in
  let ctx := set_Rotation ctx e (out_rot out) in
  let ctx := set_Velocity ctx e (out_vel out) in
  let ctx := set_PrevState ctx e (out_prev_state out) in
  let ctx := set_StartState ctx e (out_start_state out) in
  set_VelocityState ctx e (out_vel_state out).

(** The call of [setVelocities] for the entity [e]; only [Velocity] is
    taken by non-const reference. *)
Definition setVelocitiesNode (ctx : Context) (e : Entity) : Context :=
  set_Velocity ctx e
    (setVelocities ctx (ctx_Position ctx !!! e) (ctx_Rotation ctx !!! e)
                   (ctx_PrevState ctx !!! e) (ctx_Velocity ctx !!! e)).

(** The narrowphase node on the candidates of a step, taken in some
    serial order. *)
Fixpoint runNarrowphaseAll (ctx : Context)
    (candidates : list CandidateCollision) : outcome Context :=
  match candidates with
  | [] => Done ctx
  | cc :: rest =>
      let* ctx := runNarrowphase ctx cc in runNarrowphaseAll ctx rest
  end.

(** One substep of [setupTasks] on a world with the bodies [entities] and
    the candidate pairs [candidates]: integrate, narrowphase, position
    solve, velocity reconstruction, velocity solve. *)
Definition substepWorld (ctx : Context) (entities : list Entity)
    (candidates : list CandidateCollision) : outcome Context :=
  let ctx := fold_left substepRigidBodiesNode entities ctx in
  let* ctx := runNarrowphaseAll ctx candidates in
  let ctx := solvePositions ctx in
  let ctx := fold_left setVelocitiesNode entities ctx in
  Done (solveVelocities ctx).

End Stages.

(** ** [RigidBodyPhysicsSystem::setupTasks] *)

(** The functions and utility nodes the task graph is built from. *)
Inductive NodeKind :=
| NodeUpdateCollisionAABB
| NodeUpdateLeaves
| NodeUpdateBVH
| NodeFindOverlapping
| NodeSubstepRigidBodies
| NodeRunNarrowphase
| NodeSolvePositions
| NodeSetVelocities
| NodeSolveVelocities
| NodeResetTmpAlloc
| NodeClearCandidates
| NodeClearCollisionEvents.

(** Modelled from the spec: [TaskGraph::Builder] is missing; [addToGraph]
    registers a node with the nodes it depends on and returns its id, the
    position of the node in registration order. *)
Definition NodeID : Type := nat.
Record Node := mkNode { node_kind : NodeKind; node_deps : list NodeID }.
Definition Builder : Type := list Node.

Definition addToGraph (builder : Builder) (kind : NodeKind)
    (deps : list NodeID) : NodeID * Builder :=
  (length builder, builder ++ [mkNode kind deps]).

(** The body of the loop over the substeps; [cur_node] is carried. *)
Definition setupSubstep (st : NodeID * Builder) : NodeID * Builder :=
  let '(cur_node, builder) := st in
  let '(rgb_update, builder) :=
    addToGraph builder NodeSubstepRigidBodies [cur_node] in
  let '(run_narrowphase, builder) :=
    addToGraph builder NodeRunNarrowphase [rgb_update] in
  let '(solve_pos, builder) :=
    addToGraph builder NodeSolvePositions [run_narrowphase] in
  let '(vel_set, builder) :=
    addToGraph builder NodeSetVelocities [solve_pos] in
  let '(solve_vel, builder) :=
    addToGraph builder NodeSolveVelocities [vel_set] in
  addToGraph builder NodeResetTmpAlloc [solve_vel].

Definition setupTasks (builder : Builder) (deps : list NodeID)
    (num_substeps : Z) : NodeID * Builder :=
  let '(update_aabbs, builder) :=
    addToGraph builder NodeUpdateCollisionAABB deps in
  let '(preprocess_leaves, builder) :=
    addToGraph builder NodeUpdateLeaves [update_aabbs] in
  let '(bvh_update, builder) :=
    addToGraph builder NodeUpdateBVH [preprocess_leaves] in
  let '(find_overlapping, builder) :=
    addToGraph builder NodeFindOverlapping [bvh_update] in
  let '(cur_node, builder) :=
    Nat.iter (Z.to_nat num_substeps) setupSubstep
             (find_overlapping, builder) in
  addToGraph builder NodeClearCandidates [cur_node].

Definition setupCleanupTasks (builder : Builder) (deps : list NodeID)
  : NodeID * Builder :=
  addToGraph builder NodeClearCollisionEvents deps.


(** ** Vocabulary of the further statements *)

(** A well-formed solver whose count is within the capacity. *)
Definition solver_ok (s : SolverData) : Prop :=
  solver_wf s /\ numContacts s <= maxContacts s.

(** A contact between the two entities of a candidate pair, in either
    role, with a zero multiplier. *)
Definition contact_of_pair (cc : CandidateCollision) (c : Contact) : Prop :=
  ((ref c = cand_a cc /\ alt c = cand_b cc)
   \/ (ref c = cand_b cc /\ alt c = cand_a cc))
  /\ lambdaN c = F32.zero.

(** The pair is a sphere and a hull, in either order. *)
Definition sphere_hull_pair (ctx : Context) (cc : CandidateCollision) : Prop :=
  Z.lor (raw_type (prim_of ctx (cand_a cc)))
        (raw_type (prim_of ctx (cand_b cc))) = SphereHull.

(** All component stores and the object catalogue are the same. *)
Definition same_components (ctx ctx' : Context) : Prop :=
  ctx_Position ctx' = ctx_Position ctx
  /\ ctx_Rotation ctx' = ctx_Rotation ctx
  /\ ctx_Scale ctx' = ctx_Scale ctx
  /\ ctx_Velocity ctx' = ctx_Velocity ctx
  /\ ctx_ObjectID ctx' = ctx_ObjectID ctx
  /\ ctx_PrevState ctx' = ctx_PrevState ctx
  /\ ctx_StartState ctx' = ctx_StartState ctx
  /\ ctx_VelocityState ctx' = ctx_VelocityState ctx
  /\ ctx_objMgr ctx' = ctx_objMgr ctx.

(** What narrowphase calls may do to the solver and the events: the
    capacity stays, the count grows by at most [k], the contacts counted
    before stay in their slots, and events are only added at the end. *)
Definition narrowphase_grows (k : Z) (ctx ctx' : Context) : Prop :=
  same_components ctx ctx'
  /\ solver_ok (ctx_solver ctx')
  /\ maxContacts (ctx_solver ctx') = maxContacts (ctx_solver ctx)
  /\ numContacts (ctx_solver ctx) <= numContacts (ctx_solver ctx')
     <= numContacts (ctx_solver ctx) + k
  /\ take (Z.to_nat (numContacts (ctx_solver ctx))) (contacts (ctx_solver ctx'))
     = take (Z.to_nat (numContacts (ctx_solver ctx))) (contacts (ctx_solver ctx))
  /\ (exists evs, ctx_events ctx' = ctx_events ctx ++ evs).


(** The entity is [ref] or [alt] of one of the contacts the solver counts
    (slots [0 .. numContacts - 1] of the buffer). *)
Definition involved (s : SolverData) (e : Entity) : Prop :=
  exists i : nat,
    (i < Z.to_nat (numContacts s))%nat
    /\ (ref (contacts s !!! i) = e \/ alt (contacts s !!! i) = e).

(** A contact buffer with the multipliers [lambdaN] blanked. *)
Definition erase_lambdaN (cs : list Contact) : list Contact :=
  map (fun c => set_lambdaN c F32.zero) cs.

(** Two solvers that differ at most in the [lambdaN] of their contacts. *)
Definition same_solver_up_to_lambdaN (s s' : SolverData) : Prop :=
  erase_lambdaN (contacts s') = erase_lambdaN (contacts s)
  /\ numContacts s' = numContacts s
  /\ maxContacts s' = maxContacts s
  /\ deltaT s' = deltaT s
  /\ h s' = h s
  /\ g s' = g s
  /\ gMagnitude s' = gMagnitude s
  /\ restitutionThreshold s' = restitutionThreshold s.

(** What the position solve leaves alone: every store but [Position] and
    [Rotation], the events, and the solver up to [lambdaN]. *)
Definition position_solve_frame (ctx ctx' : Context) : Prop :=
  ctx_Scale ctx' = ctx_Scale ctx
  /\ ctx_Velocity ctx' = ctx_Velocity ctx
  /\ ctx_ObjectID ctx' = ctx_ObjectID ctx
  /\ ctx_PrevState ctx' = ctx_PrevState ctx
  /\ ctx_StartState ctx' = ctx_StartState ctx
  /\ ctx_VelocityState ctx' = ctx_VelocityState ctx
  /\ ctx_objMgr ctx' = ctx_objMgr ctx
  /\ ctx_events ctx' = ctx_events ctx
  /\ same_solver_up_to_lambdaN (ctx_solver ctx) (ctx_solver ctx').

(** What the velocity solve leaves alone: every store but [Velocity], the
    events, and every field of the solver but the count. *)
Definition velocity_solve_frame (ctx ctx' : Context) : Prop :=
  ctx_Position ctx' = ctx_Position ctx
  /\ ctx_Rotation ctx' = ctx_Rotation ctx
  /\ ctx_Scale ctx' = ctx_Scale ctx
  /\ ctx_ObjectID ctx' = ctx_ObjectID ctx
  /\ ctx_PrevState ctx' = ctx_PrevState ctx
  /\ ctx_StartState ctx' = ctx_StartState ctx
  /\ ctx_VelocityState ctx' = ctx_VelocityState ctx
  /\ ctx_objMgr ctx' = ctx_objMgr ctx
  /\ ctx_events ctx' = ctx_events ctx
  /\ ctx_solver ctx' = set_numContacts (ctx_solver ctx) 0.


(** A body that cannot be moved: zero inverse mass and a zero inverse
    inertia tensor. *)
Definition is_static (md : RigidBodyMetadata) : Prop :=
  (invMass md =? F32.zero)%f32 = true
  /\ v3_is_zero (invInertiaTensor md) = true.

(** Both parts of a velocity kept, coordinate by coordinate, or turned
    into a NaN. *)
Definition velocity_kept (v v' : Velocity) : Prop :=
  v3_all2 coord_kept_or_nan (linear v) (linear v')
  /\ v3_all2 coord_kept_or_nan (angular v) (angular v').


(** The velocities of one body of a contact, carried through the loop of
    [updateVelocityFromContact], kept or turned into NaN. *)
Definition vel_kept1 (st st' : VelState) : Prop :=
  v3_all2 coord_kept_or_nan (vs_v1 st) (vs_v1 st')
  /\ v3_all2 coord_kept_or_nan (vs_omega1 st) (vs_omega1 st').
Definition vel_kept2 (st st' : VelState) : Prop :=
  v3_all2 coord_kept_or_nan (vs_v2 st) (vs_v2 st')
  /\ v3_all2 coord_kept_or_nan (vs_omega2 st) (vs_omega2 st').

(** What the per-entity nodes leave alone. *)
Definition node_frame (ctx ctx' : Context) : Prop :=
  ctx_solver ctx' = ctx_solver ctx
  /\ ctx_objMgr ctx' = ctx_objMgr ctx
  /\ ctx_ObjectID ctx' = ctx_ObjectID ctx
  /\ ctx_Scale ctx' = ctx_Scale ctx
  /\ ctx_events ctx' = ctx_events ctx.

(** The constraint value [d] that [handleContact] computes for the point
    [i] of a contact from the poses stored in the context. *)
Definition contact_gap `{MathOps} (ctx : Context) (contact : Contact)
    (i : nat) : float :=
  let '(r1, r2) :=
    getLocalSpaceContacts (ctx_StartState ctx !!! ref contact)
                          (ctx_StartState ctx !!! alt contact) contact i in
  let p1 :=
    v3_add (rotateVec (ctx_Rotation ctx !!! ref contact) r1)
           (ctx_Position ctx !!! ref contact) in
  let p2 :=
    v3_add (rotateVec (ctx_Rotation ctx !!! alt contact) r2)
           (ctx_Position ctx !!! alt contact) in
  dot (v3_sub p1 p2) (normal contact).


(** A chain of nodes registered one after the other from the id
    [first_id] on: the first depends on [first_deps], every other one on
    the node registered just before it. *)
Fixpoint chain (first_id : NodeID) (first_deps : list NodeID)
    (kinds : list NodeKind) : list Node :=
  match kinds with
  | [] => []
  | k :: ks => mkNode k first_deps :: chain (S first_id) [first_id] ks
  end.

(** The stages of one substep and of one step with [n] substeps. *)
Definition substepKinds : list NodeKind :=
  [ NodeSubstepRigidBodies; NodeRunNarrowphase; NodeSolvePositions;
    NodeSetVelocities; NodeSolveVelocities; NodeResetTmpAlloc ].
Definition stepKinds (n : nat) : list NodeKind :=
  [ NodeUpdateCollisionAABB; NodeUpdateLeaves; NodeUpdateBVH;
    NodeFindOverlapping ]
  ++ concat (replicate n substepKinds) ++ [ NodeClearCandidates ].

(** The vector with the three coordinates equal to [a]. *)
Definition v3_all (a : float) : Vector3 := mkVector3 a a a.


(** ** Further concrete worlds *)

Module MoreCases.

Import Ref World Cases.

(** Modelled from the spec: [Mat3x3::fromQuat] is missing; the textbook
    rotation matrix of a unit quaternion, entry [i][j] taken as row [i],
    column [j]. *)
Definition rotMat (q : Quat) (i j : nat) : float :=
  let w := q_w q in
  let x := q_x q in
  let y := q_y q in
  let z := q_z q in
  match i, j with
  | O, O => (F32.one - F32.two * (y * y + z * z))%f32
  | O, S O => (F32.two * (x * y - w * z))%f32
  | O, _ => (F32.two * (x * z + w * y))%f32
  | S O, O => (F32.two * (x * y + w * z))%f32
  | S O, S O => (F32.one - F32.two * (x * x + z * z))%f32
  | S O, _ => (F32.two * (y * z - w * x))%f32
  | _, O => (F32.two * (x * z - w * y))%f32
  | _, S O => (F32.two * (y * z + w * x))%f32
  | _, _ => (F32.one - F32.two * (x * x + y * y))%f32
  end.

#[export] Instance mat : MatOps := {| rotMatEntry := rotMat |}.

(** A hull with the one vertex [(0, 0, -1)] at the origin, over the plane
    through the origin (the vertex is one unit under the plane). *)
Definition hullOnPlane : Context :=
  world (vec 0 0 0) (vec 0 0 0) (PrimHull (mkHalfEdgeMesh [vec 0 0 (-1)]))
        PrimPlane (body (flt 1)) static_body.

(** The contact of [hullOnPlane] under the stand-in SAT: the plane is
    [ref], the hull [alt]. *)
Definition hullContact : Contact :=
  {| ref := 1%nat; alt := 0%nat;
     points := [ makeVector4 (vec 0 0 (-1)) (flt 0);
                 v4_zero; v4_zero; v4_zero ];
     numPoints := 1;
     normal := vec 0 0 1;
     lambdaN := F32.zero |}.

(** [spherePlane 0] with the resting contact in the buffer. *)
Definition restingWorld : Context := ctx_push (spherePlane 0) restingContact.

(** The unit cube centred at the origin as object box. *)
Definition unitBox : AABB := mkAABB (vec (-1) (-1) (-1)) (vec 1 1 1).

End MoreCases.


(** * Properties *)

(** ** The contact buffer *)

Lemma to_int32_small (n : Z) : 0 <= n < 2 ^ 31 -> to_int32 n = n.
Proof.
  intros Hn. unfold to_int32.
  rewrite Z.mod_small by lia. lia.
Qed.

Lemma storeContacts_fits (added buf : list Contact) (idx : Z) :
  0 <= idx ->
  idx + Z.of_nat (length added) <= Z.of_nat (length buf) ->
  exists buf', storeContacts buf idx added = Done buf'
               /\ length buf' = length buf.
Proof.
  revert buf idx.
  induction added as [|c rest IH]; intros buf idx Hidx Hfit; simpl in *.
  - eauto.
  - assert (Hin : ((0 <=? idx) && (idx <? Z.of_nat (length buf))) = true).
    { apply andb_true_intro; split; [apply Z.leb_le | apply Z.ltb_lt]; lia. }
    rewrite Hin.
    destruct (IH (<[Z.to_nat idx := c]> buf) (idx + 1)) as (buf' & Hs & Hl).
    + lia.
    + rewrite length_insert. lia.
    + exists buf'. rewrite Hs, Hl, length_insert. auto.
Qed.

Lemma storeContacts_overrun (added buf : list Contact) (idx : Z) :
  0 <= idx <= Z.of_nat (length buf) ->
  Z.of_nat (length buf) < idx + Z.of_nat (length added) ->
  storeContacts buf idx added = BufferOverrun (Z.of_nat (length buf)).
Proof.
  revert buf idx.
  induction added as [|c rest IH]; intros buf idx Hidx Hover; simpl in *.
  - lia.
  - destruct (Z.eq_dec idx (Z.of_nat (length buf))) as [-> | Hne].
    + rewrite Z.ltb_irrefl, andb_false_r. reflexivity.
    + assert (Hin : ((0 <=? idx) && (idx <? Z.of_nat (length buf))) = true).
      { apply andb_true_intro; split; [apply Z.leb_le | apply Z.ltb_lt]; lia. }
      rewrite Hin.
      rewrite <- (length_insert buf (Z.to_nat idx) c).
      apply IH; rewrite length_insert; lia.
Qed.

Lemma addContacts_one (s : SolverData) (c : Contact) :
  solver_wf s -> numContacts s < maxContacts s ->
  addContacts s [c] = Done (push_contact s c).
Proof.
  intros (Hlen & Hn & Hmax) Hroom.
  unfold addContacts, push_contact. simpl.
  rewrite to_int32_small by lia.
  assert (Hlt : (numContacts s <? maxContacts s) = true) by (apply Z.ltb_lt; lia).
  rewrite Hlt.
  assert (Hin : ((0 <=? numContacts s)
                 && (numContacts s <? Z.of_nat (length (contacts s)))) = true).
  { apply andb_true_intro; split; [apply Z.leb_le | apply Z.ltb_lt]; lia. }
  rewrite Hin. reflexivity.
Qed.

Lemma push_contact_wf (s : SolverData) (c : Contact) :
  solver_wf s -> solver_wf (push_contact s c).
Proof.
  intros (Hlen & Hn & Hmax). unfold solver_wf, push_contact; simpl.
  rewrite length_insert. lia.
Qed.

(** A span that fits is stored whole, and the buffer keeps its shape. *)
Lemma addContacts_fits (s : SolverData) (added : list Contact) :
  solver_wf s ->
  added <> [] ->
  numContacts s + Z.of_nat (length added) <= maxContacts s ->
  exists s', addContacts s added = Done s'
             /\ solver_wf s'
             /\ maxContacts s' = maxContacts s
             /\ numContacts s' = numContacts s + Z.of_nat (length added).
Proof.
  intros (Hlen & Hn & Hmax) Hne Hfit.
  assert (0 < Z.of_nat (length added)) by (destruct added; simpl; [congruence | lia]).
  unfold addContacts. simpl.
  rewrite to_int32_small by lia.
  assert (Hlt : (numContacts s <? maxContacts s) = true) by (apply Z.ltb_lt; lia).
  rewrite Hlt.
  destruct (storeContacts_fits added (contacts s) (numContacts s))
    as (buf' & Hs & Hl); [lia | lia |].
  rewrite Hs. simpl. eexists; split; [reflexivity |].
  unfold solver_wf; simpl. rewrite Hl. repeat split; lia.
Qed.

(** Sizing is enough: when the spans of a substep total at most the free
    capacity, no call stores outside the buffer and the count stays within
    [maxContacts].  (An empty span offered to a full buffer trips the
    assert, since then [contact_idx = maxContacts].) *)
Lemma addContactsSeq_within_capacity (spans : list (list Contact))
    (s : SolverData) :
  solver_wf s ->
  numContacts s + total_size spans <= maxContacts s ->
  match addContactsSeq s spans with
  | Done s' =>
      solver_wf s' /\ numContacts s' = numContacts s + total_size spans
      /\ numContacts s' <= maxContacts s'
  | AssertFailed => In [] spans
  | BufferOverrun _ | Unreachable => False
  end.
Proof.
  revert s. unfold total_size.
  induction spans as [|span rest IH]; intros s Hwf Hfit; simpl in *.
  - destruct Hwf as (Hlen & Hn & Hmax). unfold solver_wf. repeat split; lia.
  - rewrite length_app in Hfit.
    destruct span as [|c span'].
    + (* the empty span: the count does not move, the assert may trip *)
      unfold addContacts at 1. simpl.
      destruct (to_int32 (numContacts s) <? maxContacts s); simpl; [| auto].
      replace (set_contacts (set_numContacts s (numContacts s + Z.of_nat 0))
                            (contacts s))
        with s by (destruct s; unfold set_contacts, set_numContacts; simpl;
                   f_equal; lia).
      specialize (IH s Hwf ltac:(simpl in Hfit; lia)).
      destruct (addContactsSeq s rest); simpl in *; auto.
    + destruct (addContacts_fits s (c :: span') Hwf ltac:(discriminate)
                  ltac:(lia)) as (s' & Hadd & Hwf' & Hmax' & Hn').
      rewrite Hadd. simpl obind.
      specialize (IH s' Hwf' ltac:(lia)).
      destruct (addContactsSeq s' rest); auto.
      * destruct IH as (Hw & He & Hle).
        split; [exact Hw |]. split; [| exact Hle].
        rewrite length_app. lia.
Qed.

(** C2 (the code departs from the specification): the assert of
    [addContacts] compares only the first index with [maxContacts].  A
    span of two or more contacts that starts in the last slot passes the
    assert and its second store lands at index [maxContacts], one past
    the buffer. *)
Theorem addContacts_overruns_from_last_slot
    (s : SolverData) (c1 c2 : Contact) (rest : list Contact) :
  solver_wf s ->
  numContacts s = maxContacts s - 1 ->
  addContacts s (c1 :: c2 :: rest) = BufferOverrun (maxContacts s).
Proof.
  intros (Hlen & Hn & Hmax) Hlast.
  unfold addContacts.
  rewrite to_int32_small by lia.
  cbn [maxContacts set_numContacts contacts].
  assert (Hlt : (numContacts s <? maxContacts s) = true) by (apply Z.ltb_lt; lia).
  rewrite Hlt, <- Hlen.
  rewrite storeContacts_overrun; [reflexivity | lia |].
  simpl length. lia.
Qed.

(** ** Narrowphase dispatch *)

Section NarrowphaseProperties.

Context {M : MathOps} {G : SATOps}.

Lemma ctx_addContacts_one (ctx : Context) (c : Contact) :
  solver_wf (ctx_solver ctx) ->
  numContacts (ctx_solver ctx) < maxContacts (ctx_solver ctx) ->
  ctx_addContacts ctx [c] = Done (ctx_push ctx c).
Proof.
  intros Hwf Hroom. unfold ctx_addContacts.
  rewrite addContacts_one by assumption. reflexivity.
Qed.

(** Whenever appending one contact succeeds, the contact sits in a slot of
    the buffer and the count went up by one. *)
Lemma ctx_addContacts_done (ctx ctx' : Context) (c : Contact) :
  ctx_addContacts ctx [c] = Done ctx' ->
  exists i : nat,
    (i < length (contacts (ctx_solver ctx)))%nat
    /\ contacts (ctx_solver ctx') = <[i := c]> (contacts (ctx_solver ctx))
    /\ numContacts (ctx_solver ctx') = numContacts (ctx_solver ctx) + 1
    /\ ctx_events ctx' = ctx_events ctx.
Proof.
  unfold ctx_addContacts, addContacts. simpl.
  destruct (to_int32 (numContacts (ctx_solver ctx)) <? maxContacts (ctx_solver ctx));
    [| discriminate].
  destruct ((0 <=? to_int32 (numContacts (ctx_solver ctx)))
            && (to_int32 (numContacts (ctx_solver ctx))
                <? Z.of_nat (length (contacts (ctx_solver ctx))))) eqn:Hin;
    [| discriminate].
  simpl. intros [= <-]. simpl.
  apply andb_prop in Hin as [H0 H1].
  apply Z.leb_le in H0. apply Z.ltb_lt in H1.
  exists (Z.to_nat (to_int32 (numContacts (ctx_solver ctx)))).
  repeat split; lia.
Qed.

Lemma ctx_push_count (ctx : Context) (c : Contact) :
  numContacts (ctx_solver (ctx_push ctx c)) = numContacts (ctx_solver ctx) + 1
  /\ ctx_solver (ctx_push ctx c) <> ctx_solver ctx.
Proof.
  split; [reflexivity |].
  intros H. apply (f_equal numContacts) in H. simpl in H. lia.
Qed.

Lemma runNarrowphase_sphereSphere (ctx : Context) (cc : CandidateCollision)
    (rA rB : float) :
  prim_of ctx (cand_a cc) = PrimSphere rA ->
  prim_of ctx (cand_b cc) = PrimSphere rB ->
  runNarrowphase ctx cc =
    narrowphaseSphereSphere ctx cc (cand_a cc) (cand_b cc)
      (PrimSphere rA) (PrimSphere rB)
      (ctx_Position ctx !!! cand_a cc) (ctx_Position ctx !!! cand_b cc).
Proof.
  unfold prim_of, runNarrowphase. intros -> ->. reflexivity.
Qed.

(** The sphere is [a] and the plane is [b] after the rank sort, whichever
    way round the broadphase emitted the pair. *)
Lemma runNarrowphase_spherePlane (ctx : Context) (cc : CandidateCollision)
    (a b : Entity) (rA : float) :
  (cand_a cc = a /\ cand_b cc = b) \/ (cand_a cc = b /\ cand_b cc = a) ->
  prim_of ctx a = PrimSphere rA ->
  prim_of ctx b = PrimPlane ->
  runNarrowphase ctx cc =
    narrowphaseSpherePlane ctx a b (PrimSphere rA) PrimPlane
      (ctx_Position ctx !!! a) (ctx_Position ctx !!! b).
Proof.
  unfold prim_of, runNarrowphase.
  intros [[-> ->] | [-> ->]] Ha Hb; rewrite Ha, Hb; reflexivity.
Qed.

Lemma runNarrowphase_hullHull (ctx : Context) (cc : CandidateCollision)
    (mA mB : HalfEdgeMesh) :
  prim_of ctx (cand_a cc) = PrimHull mA ->
  prim_of ctx (cand_b cc) = PrimHull mB ->
  runNarrowphase ctx cc =
    narrowphaseHullHull ctx (cand_a cc) (cand_b cc)
      (PrimHull mA) (PrimHull mB)
      (ctx_Position ctx !!! cand_a cc) (ctx_Position ctx !!! cand_b cc).
Proof.
  unfold prim_of, runNarrowphase. intros -> ->. reflexivity.
Qed.

Lemma runNarrowphase_hullPlane (ctx : Context) (cc : CandidateCollision)
    (a b : Entity) (mA : HalfEdgeMesh) :
  (cand_a cc = a /\ cand_b cc = b) \/ (cand_a cc = b /\ cand_b cc = a) ->
  prim_of ctx a = PrimHull mA ->
  prim_of ctx b = PrimPlane ->
  runNarrowphase ctx cc =
    narrowphaseHullPlane ctx a b (PrimHull mA) PrimPlane
      (ctx_Position ctx !!! a) (ctx_Position ctx !!! b).
Proof.
  unfold prim_of, runNarrowphase.
  intros [[-> ->] | [-> ->]] Ha Hb; rewrite Ha, Hb; reflexivity.
Qed.

(** C4: for a sphere [a] of radius [rA] and a plane [b], with
    [n = b_rot.rotateVec((0,0,1))] and [t = n.a_pos - n.b_pos], the
    narrowphase appends a contact exactly when [t < rA]; the contact has
    one point, at [a_pos + n * rA] with stored depth [t], normal [n],
    the sphere as [ref] and the plane as [alt].  Otherwise nothing
    changes. *)
Theorem spherePlane_contact (ctx : Context) (cc : CandidateCollision)
    (a b : Entity) (rA : float) :
  solver_wf (ctx_solver ctx) ->
  numContacts (ctx_solver ctx) < maxContacts (ctx_solver ctx) ->
  (cand_a cc = a /\ cand_b cc = b) \/ (cand_a cc = b /\ cand_b cc = a) ->
  prim_of ctx a = PrimSphere rA ->
  prim_of ctx b = PrimPlane ->
  let a_pos := ctx_Position ctx !!! a in
  let b_pos := ctx_Position ctx !!! b in
  let n :=
    rotateVec (ctx_Rotation ctx !!! b) (mkVector3 F32.zero F32.zero F32.one) in
  let t := (dot n a_pos - dot n b_pos)%f32 in
  runNarrowphase ctx cc =
    Done (if (t <? rA)%f32
          then ctx_push ctx
                 {| ref := a;
                    alt := b;
                    points := [ makeVector4 (v3_add a_pos (v3_mulf n rA)) t;
                                v4_zero; v4_zero; v4_zero ];
                    numPoints := 1;
                    normal := n;
                    lambdaN := F32.zero |}
          else ctx).
Proof.
  intros Hwf Hroom Hpair Ha Hb a_pos b_pos n t.
  rewrite (runNarrowphase_spherePlane ctx cc a b rA Hpair Ha Hb).
  unfold narrowphaseSpherePlane. cbn [sphere_radius].
  fold a_pos b_pos n t.
  destruct (t <? rA)%f32; [| reflexivity].
  apply ctx_addContacts_one; assumption.
Qed.

(** C5: for two spheres with centres [a_pos], [b_pos] and radii [rA],
    [rB], a contact is appended exactly when [0 < |b-a| < rA + rB]; it has
    one point, the midpoint [a + (b-a)/2], with stored depth [|b-a|/2] and
    normal [(b-a)/|b-a|].  In the other case (coincident or separated
    centres) the pair leaves the contact buffer, and the whole context,
    unchanged. *)
Theorem sphereSphere_contact (ctx : Context) (cc : CandidateCollision)
    (rA rB : float) :
  solver_wf (ctx_solver ctx) ->
  numContacts (ctx_solver ctx) < maxContacts (ctx_solver ctx) ->
  prim_of ctx (cand_a cc) = PrimSphere rA ->
  prim_of ctx (cand_b cc) = PrimSphere rB ->
  let a_pos := ctx_Position ctx !!! cand_a cc in
  let b_pos := ctx_Position ctx !!! cand_b cc in
  let to_b := v3_sub b_pos a_pos in
  let dist := v3_length to_b in
  runNarrowphase ctx cc =
    Done (if (F32.zero <? dist)%f32 && (dist <? rA + rB)%f32
          then add_event
                 (ctx_push ctx
                    {| ref := cand_a cc;
                       alt := cand_b cc;
                       points := [ makeVector4
                                     (v3_add a_pos (v3_div to_b F32.two))
                                     (dist / F32.two)%f32;
                                   v4_zero; v4_zero; v4_zero ];
                       numPoints := 1;
                       normal := v3_div to_b dist;
                       lambdaN := F32.zero |})
                 {| event_a := cand_a cc; event_b := cand_b cc |}
          else ctx).
Proof.
  intros Hwf Hroom Ha Hb a_pos b_pos to_b dist.
  rewrite (runNarrowphase_sphereSphere ctx cc rA rB Ha Hb).
  unfold narrowphaseSphereSphere. cbn [sphere_radius].
  fold a_pos b_pos to_b dist.
  destruct ((F32.zero <? dist)%f32 && (dist <? rA + rB)%f32); [| reflexivity].
  rewrite ctx_addContacts_one by assumption. reflexivity.
Qed.

(** C7 (the code departs from the specification): the sphere/plane branch
    appends its contact without creating a [CollisionEvent]; only the
    sphere/sphere branch creates one. *)
Theorem spherePlane_contact_without_event (ctx : Context)
    (cc : CandidateCollision) (a b : Entity) (rA : float) :
  solver_wf (ctx_solver ctx) ->
  numContacts (ctx_solver ctx) < maxContacts (ctx_solver ctx) ->
  (cand_a cc = a /\ cand_b cc = b) \/ (cand_a cc = b /\ cand_b cc = a) ->
  prim_of ctx a = PrimSphere rA ->
  prim_of ctx b = PrimPlane ->
  let n :=
    rotateVec (ctx_Rotation ctx !!! b) (mkVector3 F32.zero F32.zero F32.one) in
  (dot n (ctx_Position ctx !!! a) - dot n (ctx_Position ctx !!! b) <? rA)%f32
    = true ->
  exists ctx',
    runNarrowphase ctx cc = Done ctx'
    /\ numContacts (ctx_solver ctx') = numContacts (ctx_solver ctx) + 1
    /\ ctx_events ctx' = ctx_events ctx.
Proof.
  intros Hwf Hroom Hpair Ha Hb n Ht.
  rewrite (runNarrowphase_spherePlane ctx cc a b rA Hpair Ha Hb).
  unfold narrowphaseSpherePlane. cbn [sphere_radius].
  fold n. rewrite Ht.
  rewrite ctx_addContacts_one by assumption.
  eexists; split; [reflexivity |]. split; reflexivity.
Qed.

(** The hull branches do not create an event either. *)
Lemma hull_branches_without_event (ctx ctx' : Context) (a b : Entity)
    (pA pB : CollisionPrimitive) (a_pos b_pos : Vector3) :
  narrowphaseHullHull ctx a b pA pB a_pos b_pos = Done ctx'
  \/ narrowphaseHullPlane ctx a b pA pB a_pos b_pos = Done ctx' ->
  ctx_events ctx' = ctx_events ctx.
Proof.
  unfold narrowphaseHullHull, narrowphaseHullPlane, hullHullMeshes.
  intros [H | H];
    match type of H with
    | (if ?c then _ else _) = _ => destruct c
    end;
    try (injection H as <-; reflexivity);
    apply ctx_addContacts_done in H as (_ & _ & _ & _ & He); exact He.
Qed.

End NarrowphaseProperties.

(** ** Facts of binary32 arithmetic *)

Section FloatFacts.








Lemma F32_mul_zero_r (x : float) (s : bool) :
  F32.is_zero (x * S754_zero s)%f32 = true \/ (x * S754_zero s)%f32 = S754_nan.
Proof. destruct x; simpl; auto. Qed.

Lemma F32_mul_zero_l (x : float) (s : bool) :
  F32.is_zero (S754_zero s * x)%f32 = true \/ (S754_zero s * x)%f32 = S754_nan.
Proof. destruct x; simpl; auto. Qed.

End FloatFacts.

(** ** Shape of the appended contacts *)

Section ContactShape.

Context {M : MathOps} {G : SATOps}.

Lemma ctx_addContacts_appended (P : Contact -> Prop) (ctx ctx' : Context)
    (c : Contact) :
  P c -> ctx_addContacts ctx [c] = Done ctx' -> appended_with P ctx ctx'.
Proof.
  intros HP Hadd. right.
  apply ctx_addContacts_done in Hadd as (i & Hi & Hc & Hn & _).
  exists i, c. auto.
Qed.









(** Both world-space meshes of the hull/hull branch are filled from hull
    A's half-edge mesh; hull B's own mesh is never read. *)
Lemma hullHullMeshes_both_from_A (ctx : Context) (a b : Entity)
    (mA mB : HalfEdgeMesh) (a_pos b_pos : Vector3) :
  hullHullMeshes ctx a b (PrimHull mA) (PrimHull mB) a_pos b_pos
  = (buildCollisionMesh ctx mA a a_pos, buildCollisionMesh ctx mA b b_pos).
Proof. reflexivity. Qed.

End ContactShape.

(** ** Comparisons of binary32 numbers *)

Section FloatOrder.

Lemma SFcompare_antisym (a b : float) :
  SFcompare b a = option_map CompOpp (SFcompare a b).
Proof.
  destruct a as [sa | sa | | sa ma ea], b as [sb | sb | | sb mb eb];
    simpl; try reflexivity;
    try (destruct sa; reflexivity); try (destruct sb; reflexivity);
    try (destruct sa, sb; reflexivity).
  destruct sa, sb; simpl; try reflexivity;
    rewrite (Z.compare_antisym ea eb);
    destruct (ea ?= eb); simpl; try reflexivity;
    pose proof (Pos.compare_cont_antisym ma mb Eq) as H; simpl in H;
    change (PosDef.Pos.compare_cont Eq mb ma) with (Pos.compare_cont Eq mb ma);
    rewrite <- H; try rewrite CompOpp_involutive; reflexivity.
Qed.

(** On numbers (no NaN on either side) [a <= b] fails exactly when
    [b < a]. *)
Lemma F32_leb_ltb (a b : float) :
  F32.is_nan a = false -> F32.is_nan b = false ->
  (a <=? b)%f32 = negb (b <? a)%f32.
Proof.
  intros Ha Hb. unfold F32.leb, F32.ltb, SFleb, SFltb.
  rewrite (SFcompare_antisym a b).
  destruct (SFcompare a b) as [[] |] eqn:E; try reflexivity.
  destruct a, b; simpl in *; try discriminate;
    repeat match goal with s : bool |- _ => destruct s end; discriminate.
Qed.

Lemma F32_fabsf_not_nan (a : float) :
  F32.is_nan a = false -> F32.is_nan (F32.fabsf a) = false.
Proof. destruct a; simpl; auto. Qed.

(** [0 < a] fails exactly when [a <= 0] or [a] is a NaN. *)
Lemma F32_not_pos (a : float) :
  (F32.zero <? a)%f32 = false
  <-> (a <=? F32.zero)%f32 = true \/ F32.is_nan a = true.
Proof.
  destruct a as [s | [] | | [] m e]; simpl; split; intros H;
    try reflexivity; try discriminate; auto;
    destruct H; discriminate.
Qed.

(** [0 - x] is [-x], except that [0 - (+0)] is [+0]. *)
Lemma F32_zero_sub (x : float) :
  (F32.zero - x)%f32 = (- x)%f32 \/ x = S754_zero false.
Proof. destruct x as [[] | | |]; simpl; auto. Qed.

Lemma F32_eqb_zero (x : float) :
  (x =? F32.zero)%f32 = true -> exists s, x = S754_zero s.
Proof.
  destruct x as [s | [] | | [] m e]; try discriminate. eauto.
Qed.

End FloatOrder.

(** ** Integration and velocity reconstruction *)

Section SolverProperties.

Context {M : MathOps}.

(** C10: [substepRigidBodies] writes only the angular part of [Velocity].
    For every body, static or not, the linear velocity is stored back
    unchanged while the angular velocity receives the gyroscopic term
    [h * (invI . (0 - w x (I . w)))], with [I] the reciprocal of [invI]
    (0 for a zero entry); gravity only enters the local copy that advances
    the position.  The linear velocity later rebuilt by [setVelocities] is
    the finite difference of that position against [prevPosition], which
    is how gravity reaches it. *)
Theorem substep_writes_angular_only (ctx : Context) (pos : Vector3)
    (rot : Quat) (vel : Velocity) (obj_id : nat) :
  let md := metadata (ctx_objMgr ctx) !!! obj_id in
  let inv_I := invInertiaTensor md in
  let hh := h (ctx_solver ctx) in
  let recip (x : float) :=
    if (x =? F32.zero)%f32 then F32.zero else (F32.one / x)%f32 in
  let I := mkVector3 (recip (v3_x inv_I)) (recip (v3_y inv_I))
                     (recip (v3_z inv_I)) in
  let w := angular vel in
  let v_local :=
    if (F32.zero <? invMass md)%f32
    then v3_add (linear vel) (v3_scale hh (g (ctx_solver ctx)))
    else linear vel in
  let out := substepRigidBodies ctx pos rot vel obj_id in
  linear (out_vel out) = linear vel
  /\ angular (out_vel out)
     = v3_add w (v3_scale hh
                   (multDiag inv_I (v3_sub v3_zero (cross w (multDiag I w)))))
  /\ out_pos out = v3_add pos (v3_scale hh v_local)
  /\ prevPosition (out_prev_state out) = pos
  /\ prevLinear (out_vel_state out) = linear vel
  /\ linear (setVelocities ctx (out_pos out) (out_rot out)
                           (out_prev_state out) (out_vel out))
     = v3_div (v3_sub (v3_add pos (v3_scale hh v_local)) pos) hh.
Proof.
  cbv zeta. unfold substepRigidBodies, setVelocities. cbn.
  repeat split; reflexivity.
Qed.

(** C8 (as amended): [setVelocities] stores [(pos - prevPosition) / h] and,
    with [dq = rot * prevRotation.inv()] and [w = (2 / h) * dq.xyz], the
    angular velocity [w] when [dq.w > 0] and [-w] in every other case,
    that is when [dq.w <= 0] (zero included) or [dq.w] is a NaN. *)
Theorem setVelocities_spec (ctx : Context) (pos : Vector3) (rot : Quat)
    (prev_state : SubstepPrevState) (vel : Velocity) :
  let hh := h (ctx_solver ctx) in
  let dq := quat_mul rot (quat_inv (prevRotation prev_state)) in
  let w := v3_scale (F32.two / hh)%f32 (mkVector3 (q_x dq) (q_y dq) (q_z dq)) in
  let out := setVelocities ctx pos rot prev_state vel in
  linear out = v3_div (v3_sub pos (prevPosition prev_state)) hh
  /\ ((F32.zero <? q_w dq)%f32 = true -> angular out = w)
  /\ ((q_w dq <=? F32.zero)%f32 = true \/ F32.is_nan (q_w dq) = true ->
      angular out = v3_neg w)
  /\ ((F32.zero <? q_w dq)%f32 = true
      \/ (q_w dq <=? F32.zero)%f32 = true
      \/ F32.is_nan (q_w dq) = true).
Proof.
  cbv zeta. unfold setVelocities. cbn [linear angular].
  set (dq := quat_mul rot (quat_inv (prevRotation prev_state))).
  pose proof (F32_not_pos (q_w dq)) as Hnp.
  destruct (F32.zero <? q_w dq)%f32 eqn:Hw.
  - repeat split; auto.
    intros H. apply Hnp in H. discriminate.
  - repeat split; auto; try discriminate.
    right. apply Hnp. reflexivity.
Qed.

(** The coefficient of the code is the amended one: the comparison
    [fabsf(vn_bar) <= threshold] is false with a NaN on either side. *)
Lemma restitutionCoefficient_amended (vn_bar threshold : float) :
  restitutionCoefficient vn_bar threshold
  = amended_restitution vn_bar threshold.
Proof.
  unfold restitutionCoefficient, amended_restitution, stated_restitution.
  destruct (F32.is_nan vn_bar) eqn:Hv.
  - destruct vn_bar; try discriminate. reflexivity.
  - destruct (F32.is_nan threshold) eqn:Ht.
    + destruct threshold; try discriminate.
      destruct vn_bar; reflexivity.
    + cbn [orb].
      rewrite F32_leb_ltb by auto using F32_fabsf_not_nan.
      destruct (threshold <? F32.fabsf vn_bar)%f32; reflexivity.
Qed.

Lemma fold_left_ext_eq {A B : Type} (f g : A -> B -> A) (l : list B) (a : A) :
  (forall x y, f x y = g x y) -> fold_left f l a = fold_left g l a.
Proof.
  intros Hfg. revert a.
  induction l as [|y l IH]; intros a; cbn; [reflexivity |].
  rewrite Hfg. apply IH.
Qed.

(** The loop body of [updateVelocityFromContact], with the values the
    function reads from the context. *)
Lemma updateVelocityPoint_spec (ctx : Context) (contact : Contact)
    (hh threshold : float) (st : VelState) (i : nat) :
  let metadata1 := metadata_of ctx (ctx_objMgr ctx) (ref contact) in
  let metadata2 := metadata_of ctx (ctx_objMgr ctx) (alt contact) in
  updateVelocityPoint contact
    (ctx_Rotation ctx !!! ref contact) (ctx_Rotation ctx !!! alt contact)
    (ctx_StartState ctx !!! ref contact) (ctx_StartState ctx !!! alt contact)
    (ctx_VelocityState ctx !!! ref contact)
    (ctx_VelocityState ctx !!! alt contact)
    metadata1 metadata2
    (F32.half * (muD metadata1 + muD metadata2)
     * F32.fabsf (lambdaN contact) / hh)%f32
    threshold st i
  = velocityPoint amended_restitution ctx contact hh threshold st i.
Proof.
  cbv zeta.
  unfold updateVelocityPoint, velocityPoint, vn_of, vn_bar_of, frictionStep,
    normalImpulse, local_points.
  rewrite Z.leb_antisym.
  destruct (Z.of_nat i <? numPoints contact); cbn [negb]; [| reflexivity].
  destruct (getLocalSpaceContacts _ _ contact i) as [r1 r2].
  rewrite restitutionCoefficient_amended. reflexivity.
Qed.

(** What a contact of the velocity solve reads besides the velocities. *)
Lemma updateVelocityFromContact_spec (ctx cur : Context) (contact : Contact)
    (hh threshold : float) :
  ctx_Rotation cur = ctx_Rotation ctx ->
  ctx_StartState cur = ctx_StartState ctx ->
  ctx_VelocityState cur = ctx_VelocityState ctx ->
  ctx_ObjectID cur = ctx_ObjectID ctx ->
  updateVelocityFromContact cur (ctx_objMgr ctx) contact hh threshold
  = velocityContact amended_restitution ctx cur contact hh threshold.
Proof.
  intros Hq Hs Hv Ho.
  unfold updateVelocityFromContact, velocityContact. cbv zeta.
  rewrite Hq, Hs, Hv, Ho.
  rewrite (fold_left_ext_eq _
             (velocityPoint amended_restitution ctx contact hh threshold));
    [reflexivity |].
  intros st i. apply updateVelocityPoint_spec.
Qed.

Lemma solveVelocities_loop_spec (ctx : Context) (s0 : SolverData)
    (hh threshold : float) (idxs : list nat) (cur : Context) :
  ctx_Rotation cur = ctx_Rotation ctx ->
  ctx_StartState cur = ctx_StartState ctx ->
  ctx_VelocityState cur = ctx_VelocityState ctx ->
  ctx_ObjectID cur = ctx_ObjectID ctx ->
  ctx_solver cur = ctx_solver ctx ->
  let cur' :=
    fold_left
      (fun cur k =>
         updateVelocityFromContact cur (ctx_objMgr ctx) (contacts s0 !!! k)
           hh threshold)
      idxs cur in
  cur' = fold_left
           (fun cur k =>
              velocityContact amended_restitution ctx cur (contacts s0 !!! k)
                hh threshold)
           idxs cur
  /\ ctx_solver cur' = ctx_solver ctx.
Proof.
  cbv zeta. revert cur.
  induction idxs as [|k idxs IH]; intros cur Hq Hs Hv Ho Hsol;
    cbn [fold_left].
  - split; [reflexivity | exact Hsol].
  - rewrite (updateVelocityFromContact_spec ctx cur _ hh threshold Hq Hs Hv Ho).
    apply IH; unfold velocityContact; cbv zeta; cbn; assumption.
Qed.

(** C9 (as amended): on a solver the constructor built from [delta_t],
    [num_substeps] and [gravity], the velocity solve visits the counted
    contacts in order and, in each, the points [i < numPoints] in order.
    At each point it applies, after the friction step, the impulse of
    magnitude [fminf(-e * vn_bar, 0) - vn] along the contact normal, where
    [vn] is the current normal relative velocity, [vn_bar] is the normal
    relative velocity of the [SubstepVelocityState]s of [ref] and [alt],
    [e] is 0 when [|vn_bar| <= threshold] and 0.4 otherwise (so also when
    [vn_bar] or the threshold is a NaN), and the threshold is
    [2 * |g| * h] with [h = delta_t / num_substeps]. *)
Theorem restitution_impulse (ctx : Context) (max_contacts num_substeps : Z)
    (delta_t : float) (gravity : Vector3) :
  solver_built max_contacts delta_t num_substeps gravity (ctx_solver ctx) ->
  let hh := (delta_t / F32.of_Z num_substeps)%f32 in
  let threshold := (F32.two * v3_length gravity * hh)%f32 in
  solveVelocities ctx = velocitySolve amended_restitution ctx hh threshold.
Proof.
  cbv zeta. intros (cs & n & Hs).
  assert (Hh : h (ctx_solver ctx) = (delta_t / F32.of_Z num_substeps)%f32)
    by (rewrite Hs; reflexivity).
  assert (Ht : restitutionThreshold (ctx_solver ctx)
               = (F32.two * v3_length gravity
                  * (delta_t / F32.of_Z num_substeps))%f32)
    by (rewrite Hs; reflexivity).
  unfold solveVelocities, velocitySolve. cbv zeta.
  rewrite Hh, Ht.
  destruct (solveVelocities_loop_spec ctx (ctx_solver ctx)
              (delta_t / F32.of_Z num_substeps)%f32
              (F32.two * v3_length gravity
               * (delta_t / F32.of_Z num_substeps))%f32
              (seq 0 (Z.to_nat (numContacts (ctx_solver ctx)))) ctx
              eq_refl eq_refl eq_refl eq_refl eq_refl) as [Hloop Hsol].
  rewrite Hsol, Hloop. reflexivity.
Qed.

End SolverProperties.

(** ** Bodies with [invMass = 0] *)

Section StaticBodies.

Context {M : MathOps}.

Lemma coord_kept_or_nan_refl (x : float) : coord_kept_or_nan x x.
Proof. right. left. reflexivity. Qed.

Lemma coord_kept_or_nan_trans (x y z : float) :
  coord_kept_or_nan x y -> coord_kept_or_nan y z -> coord_kept_or_nan x z.
Proof.
  unfold coord_kept_or_nan, coord_kept.
  intros [-> | [-> | [Hx Hy]]] [-> | [-> | [Hy' Hz]]]; auto; discriminate.
Qed.

Lemma v3_kept_refl (a : Vector3) : v3_all2 coord_kept_or_nan a a.
Proof. repeat split; apply coord_kept_or_nan_refl. Qed.

Lemma v3_kept_trans (a b c : Vector3) :
  v3_all2 coord_kept_or_nan a b -> v3_all2 coord_kept_or_nan b c ->
  v3_all2 coord_kept_or_nan a c.
Proof.
  intros (H1 & H2 & H3) (H1' & H2' & H3').
  repeat split; eapply coord_kept_or_nan_trans; eauto.
Qed.

Lemma F32_add_zero_kept (x y : float) :
  F32.is_zero y = true \/ y = S754_nan -> coord_kept_or_nan x (x + y)%f32.
Proof.
  unfold coord_kept_or_nan, coord_kept.
  intros [Hy | ->].
  - destruct y as [sy | | |]; try discriminate.
    destruct x as [[] | | |], sy; simpl; auto.
  - left. destruct x; reflexivity.
Qed.

Lemma F32_sub_zero_kept (x y : float) :
  F32.is_zero y = true \/ y = S754_nan -> coord_kept_or_nan x (x - y)%f32.
Proof.
  unfold coord_kept_or_nan, coord_kept.
  intros [Hy | ->].
  - destruct y as [sy | | |]; try discriminate.
    destruct x as [[] | | |], sy; simpl; auto.
  - left. destruct x; reflexivity.
Qed.










End StaticBodies.

(** ** Evaluations on concrete worlds *)

Section Evaluations.

Import Ref World Cases.

(** C1 (the code departs from the specification): in the hull/hull branch
    hull B's world-space mesh is filled from hull A's half-edge mesh.
    With A = {(1,0,0)} at the origin and B = {(2,0,0), (3,0,0)} at
    (5,0,0), the narrowphase takes the hull/hull branch and the mesh
    handed to [doSAT] for B has the one vertex (6,0,0), that is A's vertex
    under B's transform, where B's own mesh gives the two vertices (7,0,0)
    and (8,0,0). *)
Theorem hullHull_meshB_built_from_hullA :
  let meshes :=
    hullHullMeshes twoHulls 0%nat 1%nat
      (prim_of twoHulls 0%nat) (prim_of twoHulls 1%nat)
      (vec 0 0 0) (vec 5 0 0) in
  prim_of twoHulls 0%nat = PrimHull meshA
  /\ prim_of twoHulls 1%nat = PrimHull meshB
  /\ runNarrowphase twoHulls pair01
     = narrowphaseHullHull twoHulls 0%nat 1%nat
         (PrimHull meshA) (PrimHull meshB) (vec 0 0 0) (vec 5 0 0)
  /\ halfEdgeMesh (snd meshes) = meshA
  /\ vertexCount (snd meshes) = 1
  /\ vertices (snd meshes) = [vec 6 0 0]
  /\ vertices (buildCollisionMesh twoHulls meshB 1%nat (vec 5 0 0))
     = [vec 7 0 0; vec 8 0 0].
Proof. vm_compute. repeat split. Qed.

Lemma addContacts_overruns_witness :
  solver_wf solver2_last
  /\ numContacts solver2_last = maxContacts solver2_last - 1
  /\ addContacts solver2_last [contact1; contact2] = BufferOverrun 2.
Proof.
  assert (Hwf : solver_wf solver2_last)
    by (vm_compute; intuition discriminate).
  split; [exact Hwf |]. split; [reflexivity |].
  exact (addContacts_overruns_from_last_slot solver2_last contact1 contact2 []
           Hwf eq_refl).
Defined.




Lemma spherePlane_contact_witness :
  solver_wf (ctx_solver (spherePlane 0))
  /\ prim_of (spherePlane 0) 0%nat = PrimSphere (flt 1)
  /\ prim_of (spherePlane 0) 1%nat = PrimPlane
  /\ runNarrowphase (spherePlane 0) pair10
     = Done (ctx_push (spherePlane 0) restingContact).
Proof.
  assert (Hwf : solver_wf (ctx_solver (spherePlane 0)))
    by (vm_compute; intuition discriminate).
  split; [exact Hwf |]. split; [reflexivity |]. split; [reflexivity |].
  exact (spherePlane_contact (spherePlane 0) pair10 0%nat 1%nat (flt 1)
           Hwf eq_refl (or_intror (conj eq_refl eq_refl)) eq_refl eq_refl).
Defined.

Lemma sphereSphere_contact_witness :
  solver_wf (ctx_solver twoSpheres)
  /\ prim_of twoSpheres 0%nat = PrimSphere (flt 1)
  /\ prim_of twoSpheres 1%nat = PrimSphere (flt 1)
  /\ runNarrowphase twoSpheres pair01
     = Done (add_event (ctx_push twoSpheres midContact)
                       (mkCollisionEvent 0%nat 1%nat)).
Proof.
  assert (Hwf : solver_wf (ctx_solver twoSpheres))
    by (vm_compute; intuition discriminate).
  split; [exact Hwf |]. split; [reflexivity |]. split; [reflexivity |].
  exact (sphereSphere_contact twoSpheres pair01 (flt 1) (flt 1)
           Hwf eq_refl eq_refl eq_refl).
Defined.

Lemma spherePlane_contact_without_event_witness :
  solver_wf (ctx_solver (spherePlane 0))
  /\ exists ctx',
       runNarrowphase (spherePlane 0) pair01 = Done ctx'
       /\ numContacts (ctx_solver ctx') = 0 + 1
       /\ ctx_events ctx' = [].
Proof.
  assert (Hwf : solver_wf (ctx_solver (spherePlane 0)))
    by (vm_compute; intuition discriminate).
  split; [exact Hwf |].
  exact (spherePlane_contact_without_event (spherePlane 0) pair01 0%nat 1%nat
           (flt 1) Hwf eq_refl (or_introl (conj eq_refl eq_refl))
           eq_refl eq_refl eq_refl).
Defined.



(** C8 as the specification states it fails at [dq.w = 0]: for a half turn about the x axis
    since the previous state, [dq = (0; 1, 0, 0)], so [dq.w < 0] does not
    hold, and still the stored angular velocity is [-w = (-2, -0, -0)],
    not [w = (2, 0, 0)]. *)
Lemma setVelocities_negates_half_turn :
  let dq := quat_mul halfTurn (quat_inv (prevRotation restPrev)) in
  let w :=
    v3_scale (F32.two / h (ctx_solver twoSpheres))%f32
             (mkVector3 (q_x dq) (q_y dq) (q_z dq)) in
  let out := setVelocities twoSpheres (vec 0 0 0) halfTurn restPrev
                           restVelocity in
  q_w dq = F32.zero
  /\ (q_w dq <? F32.zero)%f32 = false
  /\ w = vec 2 0 0
  /\ angular out = v3_neg w
  /\ angular out <> w.
Proof.
  vm_compute. repeat split; discriminate.
Qed.

(** C9 as the specification states it fails when the threshold is a NaN.
    A solver constructed with [delta_t = 0] and [num_substeps = 0] has
    [h = 0 / 0], so its threshold [2 * |g| * h] is a NaN.  For a sphere
    on a plane with [vn_bar = 5] and [vn = 1] the comparison
    [fabsf(vn_bar) <= threshold] is false and the code keeps [e = 0.4]:
    the impulse is [fminf(-2, 0) - 1 = -3] and the sphere leaves the solve
    with the velocity [(0, 0, -2)].  With [e = 0], as stated for
    [|vn_bar| > threshold] not holding, the impulse is [-1] and the
    velocity [(0, 0, 0)]. *)
Lemma restitution_nan_threshold :
  let solver := ctx_solver reboundWorld in
  solver_built 2 (flt 0) 0 (vec 0 0 (-10)) solver
  /\ F32.is_nan (restitutionThreshold solver) = true
  /\ vn_bar_of reboundWorld restingContact 0 = flt 5
  /\ restitutionCoefficient (flt 5) (restitutionThreshold solver)
     = F32.lit_0_4
  /\ stated_restitution (flt 5) (restitutionThreshold solver) = F32.zero
  /\ ctx_Velocity (solveVelocities reboundWorld) !!! 0%nat
     = mkVelocity (vec 0 0 (-2)) (vec 0 0 0)
  /\ ctx_Velocity
       (velocitySolve stated_restitution reboundWorld (h solver)
                      (restitutionThreshold solver)) !!! 0%nat
     = mkVelocity (vec 0 0 0) (vec 0 0 0).
Proof.
  cbv zeta. split; [eexists _, _; reflexivity |].
  vm_compute. repeat split.
Qed.

Lemma restitution_impulse_witness :
  solver_built 2 (flt 1) 1 (vec 0 0 (-10)) (ctx_solver approachWorld)
  /\ solveVelocities approachWorld
     = velocitySolve amended_restitution approachWorld
         (flt 1 / F32.of_Z 1)%f32
         (F32.two * v3_length (vec 0 0 (-10)) * (flt 1 / F32.of_Z 1))%f32.
Proof.
  assert (Hb : solver_built 2 (flt 1) 1 (vec 0 0 (-10))
                 (ctx_solver approachWorld))
    by (eexists _, _; reflexivity).
  pose proof (restitution_impulse approachWorld 2 1 (flt 1) (vec 0 0 (-10))
                Hb) as H.
  split; [exact Hb | exact H].
Defined.

End Evaluations.

(** * Further properties *)

(** ** Appending one contact at a time *)

Section BufferProperties.

Context {M : MathOps}.

Lemma SolverData_init_wf (max_contacts : Z) (delta_t : float)
    (num_substeps : Z) (gravity : Vector3) :
  0 <= max_contacts < 2 ^ 31 ->
  solver_wf (SolverData_init max_contacts delta_t num_substeps gravity).
Proof.
  intros Hmax. unfold solver_wf, SolverData_init. cbn.
  rewrite length_replicate. lia.
Qed.

(** Single-contact spans land in consecutive slots, in order. *)
Lemma addContactsSeq_singletons (cs : list Contact) (s : SolverData) :
  solver_wf s ->
  numContacts s + Z.of_nat (length cs) <= maxContacts s ->
  addContactsSeq s (map (fun c => [c]) cs)
  = Done (set_contacts
            (set_numContacts s (numContacts s + Z.of_nat (length cs)))
            (take (Z.to_nat (numContacts s)) (contacts s) ++ cs
             ++ drop (Z.to_nat (numContacts s) + length cs)%nat (contacts s))).
Proof.
  revert s.
  induction cs as [|c cs IH]; intros s Hwf Hfit; cbn [map addContactsSeq].
  - cbn [length app]. rewrite Nat.add_0_r, take_drop.
    destruct s; unfold set_contacts, set_numContacts; cbn.
    do 2 f_equal. lia.
  - cbn [length] in *.
    rewrite addContacts_one by (assumption || lia). cbn [obind].
    pose proof (push_contact_wf s c Hwf) as Hwf'.
    rewrite (IH (push_contact s c) Hwf')
      by (unfold push_contact; cbn; lia).
    destruct Hwf as (Hlen & Hn & Hmax).
    unfold push_contact, set_contacts, set_numContacts. cbn.
    f_equal. f_equal; [| lia].
    set (n := Z.to_nat (numContacts s)).
    assert (Hn' : Z.to_nat (numContacts s + 1) = S n) by (subst n; lia).
    assert (Hlt : (n < length (contacts s))%nat) by (subst n; lia).
    rewrite Hn'.
    destruct (lookup_lt_is_Some_2 (contacts s) n Hlt) as [x Hx].
    rewrite (take_S_r (<[n:=c]> (contacts s)) n c)
      by (apply list_lookup_insert_eq; exact Hlt).
    rewrite take_insert_ge by lia.
    rewrite drop_insert_lt by lia.
    rewrite <- app_assoc. cbn [app].
    replace (S n + length cs)%nat with (n + S (length cs))%nat by lia.
    reflexivity.
Qed.

(** X1: a freshly constructed solver takes single-contact appends into
    slots 0, 1, 2, ... in the order of the calls: after [k <=
    maxContacts] appends the count is [k] and the first [k] slots hold
    the appended contacts; once [k = maxContacts], the next append fails
    the assert. *)
Theorem fresh_solver_fills_in_order (max_contacts : Z) (delta_t : float)
    (num_substeps : Z) (gravity : Vector3) (cs : list Contact) :
  0 <= max_contacts < 2 ^ 31 ->
  Z.of_nat (length cs) <= max_contacts ->
  exists s',
    addContactsSeq (SolverData_init max_contacts delta_t num_substeps gravity)
                   (map (fun c => [c]) cs) = Done s'
    /\ solver_wf s'
    /\ numContacts s' = Z.of_nat (length cs)
    /\ take (length cs) (contacts s') = cs
    /\ (Z.of_nat (length cs) = max_contacts ->
        forall c, addContacts s' [c] = AssertFailed).
Proof.
  intros Hmax Hfit.
  set (s := SolverData_init max_contacts delta_t num_substeps gravity).
  pose proof (SolverData_init_wf max_contacts delta_t num_substeps gravity
                Hmax) as Hwf.
  fold s in Hwf.
  assert (Hn : numContacts s = 0) by reflexivity.
  assert (Hm : maxContacts s = max_contacts) by reflexivity.
  eexists. split.
  { apply addContactsSeq_singletons; [exact Hwf | lia]. }
  rewrite Hn. change (Z.to_nat 0) with 0%nat.
  rewrite take_0, Z.add_0_l, Nat.add_0_l. cbn [app].
  destruct Hwf as (Hlen & _ & Hlt).
  unfold solver_wf, set_contacts, set_numContacts.
  cbn [contacts numContacts maxContacts].
  split; [| split; [reflexivity | split]].
  - rewrite length_app, length_drop. repeat split; lia.
  - apply take_app_length.
  - intros Hfull c. unfold addContacts.
    cbn [contacts numContacts maxContacts set_numContacts].
    rewrite to_int32_small by lia.
    assert (Hge : (Z.of_nat (length cs) <? maxContacts s) = false)
      by (apply Z.ltb_ge; lia).
    rewrite Hge. reflexivity.
Qed.

Lemma addContacts_full (s : SolverData) (added : list Contact) :
  solver_wf s -> numContacts s = maxContacts s ->
  addContacts s added = AssertFailed.
Proof.
  intros (Hlen & Hn & Hmax) Hfull. unfold addContacts. cbn.
  rewrite to_int32_small by lia.
  assert (Hge : (numContacts s <? maxContacts s) = false)
    by (apply Z.ltb_ge; lia).
  rewrite Hge. reflexivity.
Qed.

(** X2: on a well-formed solver an empty span is a no-op while there is
    a free slot, and a full buffer fails the assert for every span, the
    empty one included. *)
Theorem addContacts_empty_and_full (s : SolverData) :
  solver_wf s ->
  (numContacts s < maxContacts s -> addContacts s [] = Done s)
  /\ (numContacts s = maxContacts s ->
      forall added, addContacts s added = AssertFailed).
Proof.
  intros (Hlen & Hn & Hmax). split.
  - intros Hroom. unfold addContacts. cbn.
    rewrite to_int32_small by lia.
    assert (Hlt : (numContacts s <? maxContacts s) = true)
      by (apply Z.ltb_lt; lia).
    rewrite Hlt. destruct s; unfold set_contacts, set_numContacts; cbn.
    do 2 f_equal. lia.
  - intros Hfull added.
    apply addContacts_full; [repeat split; assumption | exact Hfull].
Qed.

End BufferProperties.

(** ** What the narrowphase can and cannot do *)

Section NarrowphaseSafety.

Context {M : MathOps} {G : SATOps}.

Lemma runNarrowphase_sphereHull (ctx : Context) (cc : CandidateCollision) :
  sphere_hull_pair ctx cc -> runNarrowphase ctx cc = AssertFailed.
Proof.
  unfold sphere_hull_pair, prim_of, runNarrowphase.
  destruct (primitives (ctx_objMgr ctx) !!! (ctx_ObjectID ctx !!! cand_a cc));
    destruct (primitives (ctx_objMgr ctx) !!! (ctx_ObjectID ctx !!! cand_b cc));
    cbn; intros H; try discriminate H; reflexivity.
Qed.

Lemma runNarrowphase_planePlane (ctx : Context) (cc : CandidateCollision) :
  prim_of ctx (cand_a cc) = PrimPlane ->
  prim_of ctx (cand_b cc) = PrimPlane ->
  runNarrowphase ctx cc = Done ctx.
Proof.
  unfold prim_of, runNarrowphase. intros -> ->. reflexivity.
Qed.

(** Every run of the narrowphase is one of: nothing, the append of one
    contact of the pair (followed by an event of the pair in the
    sphere/sphere branch), or the failed assert of the sphere/hull
    branch. *)
Lemma runNarrowphase_shape (ctx : Context) (cc : CandidateCollision) :
  runNarrowphase ctx cc = Done ctx
  \/ (exists c,
        contact_of_pair cc c
        /\ (runNarrowphase ctx cc = ctx_addContacts ctx [c]
            \/ runNarrowphase ctx cc
               = (let* ctx1 := ctx_addContacts ctx [c] in
                  Done (add_event ctx1
                          (mkCollisionEvent (cand_a cc) (cand_b cc))))))
  \/ (runNarrowphase ctx cc = AssertFailed /\ sphere_hull_pair ctx cc).
Proof.
  destruct (prim_of ctx (cand_a cc)) as [rA | mA |] eqn:Ea;
    destruct (prim_of ctx (cand_b cc)) as [rB | mB |] eqn:Eb.
  - rewrite (runNarrowphase_sphereSphere ctx cc rA rB Ea Eb).
    unfold narrowphaseSphereSphere.
    match goal with |- context [if ?c then _ else _] => destruct c end;
      [right; left | left; reflexivity].
    eexists. split; [| right; reflexivity].
    unfold contact_of_pair; cbn. auto.
  - right. right.
    assert (Hp : sphere_hull_pair ctx cc)
      by (unfold sphere_hull_pair; rewrite Ea, Eb; reflexivity).
    split; [apply runNarrowphase_sphereHull, Hp | exact Hp].
  - rewrite (runNarrowphase_spherePlane ctx cc _ _ rA
               (or_introl (conj eq_refl eq_refl)) Ea Eb).
    unfold narrowphaseSpherePlane.
    match goal with |- context [if ?c then _ else _] => destruct c end;
      [right; left | left; reflexivity].
    eexists. split; [| left; reflexivity].
    unfold contact_of_pair; cbn. auto.
  - right. right.
    assert (Hp : sphere_hull_pair ctx cc)
      by (unfold sphere_hull_pair; rewrite Ea, Eb; reflexivity).
    split; [apply runNarrowphase_sphereHull, Hp | exact Hp].
  - rewrite (runNarrowphase_hullHull ctx cc mA mB Ea Eb).
    unfold narrowphaseHullHull, hullHullMeshes.
    match goal with |- context [if ?c then _ else _] => destruct c end;
      [right; left | left; reflexivity].
    eexists. split; [| left; reflexivity].
    unfold contact_of_pair, manifoldContact; cbn.
    destruct (aIsReference _); auto.
  - rewrite (runNarrowphase_hullPlane ctx cc _ _ mA
               (or_introl (conj eq_refl eq_refl)) Ea Eb).
    unfold narrowphaseHullPlane.
    match goal with |- context [if ?c then _ else _] => destruct c end;
      [right; left | left; reflexivity].
    eexists. split; [| left; reflexivity].
    unfold contact_of_pair, manifoldContact; cbn. auto.
  - rewrite (runNarrowphase_spherePlane ctx cc _ _ rB
               (or_intror (conj eq_refl eq_refl)) Eb Ea).
    unfold narrowphaseSpherePlane.
    match goal with |- context [if ?c then _ else _] => destruct c end;
      [right; left | left; reflexivity].
    eexists. split; [| left; reflexivity].
    unfold contact_of_pair; cbn. auto.
  - rewrite (runNarrowphase_hullPlane ctx cc _ _ mB
               (or_intror (conj eq_refl eq_refl)) Eb Ea).
    unfold narrowphaseHullPlane.
    match goal with |- context [if ?c then _ else _] => destruct c end;
      [right; left | left; reflexivity].
    eexists. split; [| left; reflexivity].
    unfold contact_of_pair, manifoldContact; cbn. auto.
  - left. apply runNarrowphase_planePlane; assumption.
Qed.

Lemma same_components_refl (ctx : Context) : same_components ctx ctx.
Proof. unfold same_components. repeat split. Qed.

Lemma narrowphase_grows_refl (k : Z) (ctx : Context) :
  0 <= k -> solver_ok (ctx_solver ctx) -> narrowphase_grows k ctx ctx.
Proof.
  intros Hk Hok. unfold narrowphase_grows.
  split; [apply same_components_refl |].
  split; [exact Hok |]. split; [reflexivity |].
  split; [lia |]. split; [reflexivity |].
  exists []. rewrite app_nil_r. reflexivity.
Qed.

Lemma narrowphase_grows_trans (k1 k2 : Z) (ctx1 ctx2 ctx3 : Context) :
  narrowphase_grows k1 ctx1 ctx2 -> narrowphase_grows k2 ctx2 ctx3 ->
  narrowphase_grows (k1 + k2) ctx1 ctx3.
Proof.
  intros (Hc & Hok & Hm & Hn & Ht & evs & He)
         (Hc' & Hok' & Hm' & Hn' & Ht' & evs' & He').
  unfold narrowphase_grows.
  split.
  { unfold same_components in *.
    destruct Hc as (? & ? & ? & ? & ? & ? & ? & ? & ?).
    destruct Hc' as (? & ? & ? & ? & ? & ? & ? & ? & ?).
    repeat split; congruence. }
  split; [exact Hok' |]. split; [congruence |]. split; [lia |].
  split.
  - destruct Hok as ((_ & H0 & _) & _).
    rewrite <- Ht.
    apply (f_equal (take (Z.to_nat (numContacts (ctx_solver ctx1))))) in Ht'.
    rewrite !take_take in Ht'.
    replace (Z.to_nat (numContacts (ctx_solver ctx1))
             `min` Z.to_nat (numContacts (ctx_solver ctx2)))%nat
      with (Z.to_nat (numContacts (ctx_solver ctx1))) in Ht' by lia.
    exact Ht'.
  - exists (evs ++ evs'). rewrite He', He, app_assoc. reflexivity.
Qed.

Lemma narrowphase_grows_push (ctx : Context) (c : Contact) :
  solver_ok (ctx_solver ctx) ->
  numContacts (ctx_solver ctx) < maxContacts (ctx_solver ctx) ->
  narrowphase_grows 1 ctx (ctx_push ctx c).
Proof.
  intros (Hwf & Hle) Hroom. unfold narrowphase_grows.
  split; [unfold same_components; repeat split |].
  split.
  { split; [apply push_contact_wf, Hwf | cbn; lia]. }
  split; [reflexivity |]. split; [cbn; lia |].
  split; [cbn; apply take_insert_ge; lia |].
  exists []. cbn. rewrite app_nil_r. reflexivity.
Qed.

Lemma narrowphase_grows_event (k : Z) (ctx ctx' : Context)
    (ev : CollisionEvent) :
  narrowphase_grows k ctx ctx' -> narrowphase_grows k ctx (add_event ctx' ev).
Proof.
  intros (Hc & Hok & Hm & Hn & Ht & evs & He).
  unfold narrowphase_grows. cbn.
  repeat (split; [assumption |]).
  exists (evs ++ [ev]). rewrite He, app_assoc. reflexivity.
Qed.

Lemma ctx_addContacts_cases (ctx : Context) (c : Contact) :
  solver_ok (ctx_solver ctx) ->
  (numContacts (ctx_solver ctx) < maxContacts (ctx_solver ctx)
   /\ ctx_addContacts ctx [c] = Done (ctx_push ctx c))
  \/ (numContacts (ctx_solver ctx) = maxContacts (ctx_solver ctx)
      /\ ctx_addContacts ctx [c] = AssertFailed).
Proof.
  intros (Hwf & Hle).
  destruct (Z.eq_dec (numContacts (ctx_solver ctx))
                     (maxContacts (ctx_solver ctx))) as [Hfull | Hroom].
  - right. split; [exact Hfull |].
    unfold ctx_addContacts.
    rewrite (addContacts_full _ [c] Hwf Hfull). reflexivity.
  - left. split; [lia |]. apply ctx_addContacts_one; [exact Hwf | lia].
Qed.

(** One narrowphase call on a solver whose count is within its capacity:
    no store outside the buffer, no unreachable default; a failed assert
    only for a sphere/hull pair or a full buffer. *)
Lemma runNarrowphase_step (ctx : Context) (cc : CandidateCollision) :
  solver_ok (ctx_solver ctx) ->
  match runNarrowphase ctx cc with
  | Done ctx' => narrowphase_grows 1 ctx ctx'
  | AssertFailed =>
      sphere_hull_pair ctx cc
      \/ numContacts (ctx_solver ctx) = maxContacts (ctx_solver ctx)
  | BufferOverrun _ | Unreachable => False
  end.
Proof.
  intros Hok.
  destruct (runNarrowphase_shape ctx cc)
    as [-> | [(c & _ & [-> | ->]) | [-> Hp]]].
  - apply narrowphase_grows_refl; [lia | exact Hok].
  - destruct (ctx_addContacts_cases ctx c Hok) as [[Hroom ->] | [Hfull ->]].
    + apply narrowphase_grows_push; assumption.
    + right. exact Hfull.
  - destruct (ctx_addContacts_cases ctx c Hok) as [[Hroom ->] | [Hfull ->]].
    + cbn. apply narrowphase_grows_event, narrowphase_grows_push; assumption.
    + right. exact Hfull.
  - left. exact Hp.
Qed.

Lemma sphere_hull_pair_same (ctx ctx' : Context) (cc : CandidateCollision) :
  same_components ctx ctx' ->
  sphere_hull_pair ctx' cc -> sphere_hull_pair ctx cc.
Proof.
  unfold same_components, sphere_hull_pair, prim_of.
  intros (_ & _ & _ & _ & -> & _ & _ & _ & ->). auto.
Qed.

Lemma runNarrowphaseAll_steps (candidates : list CandidateCollision)
    (ctx : Context) :
  solver_ok (ctx_solver ctx) ->
  match runNarrowphaseAll ctx candidates with
  | Done ctx' => narrowphase_grows (Z.of_nat (length candidates)) ctx ctx'
  | AssertFailed =>
      (exists cc, In cc candidates /\ sphere_hull_pair ctx cc)
      \/ maxContacts (ctx_solver ctx) - numContacts (ctx_solver ctx)
         < Z.of_nat (length candidates)
  | BufferOverrun _ | Unreachable => False
  end.
Proof.
  revert ctx.
  induction candidates as [|cc rest IH]; intros ctx Hok;
    cbn [runNarrowphaseAll length].
  - apply narrowphase_grows_refl; [lia | exact Hok].
  - pose proof (runNarrowphase_step ctx cc Hok) as Hstep.
    destruct (runNarrowphase ctx cc) as [ctx1 | | |]; cbn [obind];
      try contradiction.
    + pose proof Hstep as (Hc & Hok1 & Hm & Hn & _).
      specialize (IH ctx1 Hok1).
      destruct (runNarrowphaseAll ctx1 rest) as [ctx2 | | |];
        try contradiction.
      * replace (Z.of_nat (S (length rest)))
          with (1 + Z.of_nat (length rest)) by lia.
        eapply narrowphase_grows_trans; eassumption.
      * destruct IH as [(cc' & Hin & Hp) | Hfew].
        -- left. exists cc'. split; [right; exact Hin |].
           eapply sphere_hull_pair_same; eassumption.
        -- right. lia.
    + destruct Hstep as [Hp | Hfull].
      * left. exists cc. split; [left; reflexivity | exact Hp].
      * right. destruct Hok as (_ & Hle). lia.
Qed.

(** X3: the narrowphase node over the candidates of a step, in any serial
    order, on a solver whose count is within its capacity: it never
    stores outside the buffer; it fails an assert only if some candidate
    is a sphere/hull pair or the free slots are fewer than the
    candidates; and when it completes, the count grew by at most the
    number of candidates, earlier contacts are untouched and no
    component of any body was written. *)
Theorem runNarrowphaseAll_safe (candidates : list CandidateCollision)
    (ctx : Context) :
  solver_ok (ctx_solver ctx) ->
  match runNarrowphaseAll ctx candidates with
  | Done ctx' => narrowphase_grows (Z.of_nat (length candidates)) ctx ctx'
  | AssertFailed =>
      (exists cc, In cc candidates /\ sphere_hull_pair ctx cc)
      \/ maxContacts (ctx_solver ctx) - numContacts (ctx_solver ctx)
         < Z.of_nat (length candidates)
  | BufferOverrun _ | Unreachable => False
  end.
Proof. exact (runNarrowphaseAll_steps candidates ctx). Qed.

(** X4: whatever the state of the solver, a contact stored by a
    narrowphase call is a contact between the two entities of the
    candidate pair (as [ref] and [alt], in one order or the other) with
    [lambdaN = 0], and the call adds no event or the one event of the
    pair. *)
Theorem runNarrowphase_contact_of_pair (ctx ctx' : Context)
    (cc : CandidateCollision) :
  runNarrowphase ctx cc = Done ctx' ->
  appended_with (contact_of_pair cc) ctx ctx'
  /\ (ctx_events ctx' = ctx_events ctx
      \/ ctx_events ctx'
         = ctx_events ctx ++ [mkCollisionEvent (cand_a cc) (cand_b cc)]).
Proof.
  destruct (runNarrowphase_shape ctx cc)
    as [-> | [(c & Hc & [-> | ->]) | [-> _]]].
  - intros [= <-]. split; [left; reflexivity | left; reflexivity].
  - intros Hadd. split.
    + eapply ctx_addContacts_appended; eassumption.
    + left. apply ctx_addContacts_done in Hadd as (_ & _ & _ & _ & He).
      exact He.
  - destruct (ctx_addContacts ctx [c]) as [ctx1 | | |] eqn:Hadd;
      cbn; try discriminate.
    intros [= <-]. split.
    + pose proof (ctx_addContacts_appended _ _ _ _ Hc Hadd) as [Hs | Hs];
        [left | right]; exact Hs.
    + right. cbn.
      apply ctx_addContacts_done in Hadd as (_ & _ & _ & _ & He).
      rewrite He. reflexivity.
  - discriminate.
Qed.

(** X5: the rank sort makes the narrowphase independent of the order in
    which the broadphase emits a pair, whenever the two primitives are of
    different types. *)
Theorem runNarrowphase_order_independent (ctx : Context) (a b : Entity) :
  raw_type (prim_of ctx a) <> raw_type (prim_of ctx b) ->
  runNarrowphase ctx (mkCandidateCollision a b)
  = runNarrowphase ctx (mkCandidateCollision b a).
Proof.
  intros Hne.
  destruct (prim_of ctx a) as [rA | mA |] eqn:Ea;
    destruct (prim_of ctx b) as [rB | mB |] eqn:Eb;
    try (exfalso; apply Hne; reflexivity).
  - rewrite !runNarrowphase_sphereHull; [reflexivity | |];
      unfold sphere_hull_pair; cbn [cand_a cand_b]; rewrite Ea, Eb; reflexivity.
  - rewrite (runNarrowphase_spherePlane ctx (mkCandidateCollision a b) a b rA
               (or_introl (conj eq_refl eq_refl)) Ea Eb).
    rewrite (runNarrowphase_spherePlane ctx (mkCandidateCollision b a) a b rA
               (or_intror (conj eq_refl eq_refl)) Ea Eb).
    reflexivity.
  - rewrite !runNarrowphase_sphereHull; [reflexivity | |];
      unfold sphere_hull_pair; cbn [cand_a cand_b]; rewrite Ea, Eb; reflexivity.
  - rewrite (runNarrowphase_hullPlane ctx (mkCandidateCollision a b) a b mA
               (or_introl (conj eq_refl eq_refl)) Ea Eb).
    rewrite (runNarrowphase_hullPlane ctx (mkCandidateCollision b a) a b mA
               (or_intror (conj eq_refl eq_refl)) Ea Eb).
    reflexivity.
  - rewrite (runNarrowphase_spherePlane ctx (mkCandidateCollision a b) b a rB
               (or_intror (conj eq_refl eq_refl)) Eb Ea).
    rewrite (runNarrowphase_spherePlane ctx (mkCandidateCollision b a) b a rB
               (or_introl (conj eq_refl eq_refl)) Eb Ea).
    reflexivity.
  - rewrite (runNarrowphase_hullPlane ctx (mkCandidateCollision a b) b a mB
               (or_intror (conj eq_refl eq_refl)) Eb Ea).
    rewrite (runNarrowphase_hullPlane ctx (mkCandidateCollision b a) b a mB
               (or_introl (conj eq_refl eq_refl)) Eb Ea).
    reflexivity.
Qed.

(** X6: the two pairs without a test.  A sphere/hull pair, in either
    order and whatever the poses and the state of the solver, fails the
    [assert(false)] of its branch; a plane/plane pair leaves the whole
    context as it is. *)
Theorem runNarrowphase_untested_pairs (ctx : Context)
    (cc : CandidateCollision) :
  match prim_of ctx (cand_a cc), prim_of ctx (cand_b cc) with
  | PrimSphere _, PrimHull _ | PrimHull _, PrimSphere _ =>
      runNarrowphase ctx cc = AssertFailed
  | PrimPlane, PrimPlane => runNarrowphase ctx cc = Done ctx
  | _, _ => True
  end.
Proof.
  destruct (prim_of ctx (cand_a cc)) as [rA | mA |] eqn:Ea;
    destruct (prim_of ctx (cand_b cc)) as [rB | mB |] eqn:Eb;
    try exact I;
    try (apply runNarrowphase_sphereHull; unfold sphere_hull_pair;
         rewrite Ea, Eb; reflexivity).
  apply runNarrowphase_planePlane; assumption.
Qed.

(** X7: for a hull [a] with mesh [mA] and a plane [b], in either order of
    the candidate, the plane is the reference body: with the manifold
    [doSATPlane] returns for the plane through [b_pos] with normal
    [b_rot.rotateVec((0,0,1))] and the hull's world-space mesh, a contact
    is appended exactly when the manifold has a positive point count; it
    has [ref = b], [alt = a], the manifold's four point slots, count and
    normal. *)
Theorem hullPlane_contact (ctx : Context) (cc : CandidateCollision)
    (a b : Entity) (mA : HalfEdgeMesh) :
  solver_wf (ctx_solver ctx) ->
  numContacts (ctx_solver ctx) < maxContacts (ctx_solver ctx) ->
  (cand_a cc = a /\ cand_b cc = b) \/ (cand_a cc = b /\ cand_b cc = a) ->
  prim_of ctx a = PrimHull mA ->
  prim_of ctx b = PrimPlane ->
  let n :=
    rotateVec (ctx_Rotation ctx !!! b) (mkVector3 F32.zero F32.zero F32.one) in
  let mesh :=
    {| halfEdgeMesh := mA;
       vertexCount := getVertexCount mA;
       vertices := map (fun v => transformVertex ctx v a) (mesh_vertices mA);
       center := ctx_Position ctx !!! a |} in
  let manifold :=
    doSATPlane {| plane_point := ctx_Position ctx !!! b; plane_normal := n |}
               mesh in
  runNarrowphase ctx cc =
    Done (if 0 <? numContactPoints manifold
          then ctx_push ctx
                 {| ref := b;
                    alt := a;
                    points := [ contactPoints manifold !!! 0%nat;
                                contactPoints manifold !!! 1%nat;
                                contactPoints manifold !!! 2%nat;
                                contactPoints manifold !!! 3%nat ];
                    numPoints := numContactPoints manifold;
                    normal := manifold_normal manifold;
                    lambdaN := F32.zero |}
          else ctx).
Proof.
  intros Hwf Hroom Hpair Ha Hb n mesh manifold.
  rewrite (runNarrowphase_hullPlane ctx cc a b mA Hpair Ha Hb).
  unfold narrowphaseHullPlane. cbn [hull_halfEdgeMesh].
  assert (Hmesh : buildCollisionMesh ctx mA a (ctx_Position ctx !!! a) = mesh).
  { subst mesh. unfold buildCollisionMesh. f_equal.
    unfold getVertexCount, vertex. rewrite Nat2Z.id.
    apply list_eq. intros i.
    rewrite !list_lookup_fmap.
    destruct (decide (i < length (mesh_vertices mA))%nat) as [Hi | Hi].
    - rewrite lookup_seq_lt by exact Hi. cbn.
      destruct (lookup_lt_is_Some_2 _ _ Hi) as [v Hv].
      rewrite Hv. cbn. rewrite Nat2Z.id.
      rewrite (list_lookup_total_correct _ _ _ Hv). reflexivity.
    - rewrite lookup_seq_ge by lia.
      rewrite lookup_ge_None_2 by lia. reflexivity. }
  rewrite Hmesh. fold n. fold manifold.
  destruct (0 <? numContactPoints manifold); [| reflexivity].
  apply ctx_addContacts_one; assumption.
Qed.

End NarrowphaseSafety.

(** ** What the two solves write *)

Section SolveFrames.

Context {M : MathOps}.

Lemma erase_lambdaN_set (l : list Contact) (i : nat) (x : float) :
  erase_lambdaN (<[i := set_lambdaN (l !!! i) x]> l) = erase_lambdaN l.
Proof.
  unfold erase_lambdaN.
  change (map ?f ?l) with (f <$> l).
  rewrite list_fmap_insert.
  destruct (decide (i < length l)%nat) as [Hi | Hi].
  - apply list_insert_id. rewrite list_lookup_fmap.
    destruct (lookup_lt_is_Some_2 l i Hi) as [c Hc].
    rewrite Hc, (list_lookup_total_correct _ _ _ Hc). reflexivity.
  - apply list_insert_ge. rewrite length_fmap. lia.
Qed.

Lemma erase_lambdaN_lookup (l l' : list Contact) (i : nat) :
  erase_lambdaN l' = erase_lambdaN l ->
  ref (l' !!! i) = ref (l !!! i) /\ alt (l' !!! i) = alt (l !!! i).
Proof.
  unfold erase_lambdaN. change (map ?f ?l) with (f <$> l). intros He.
  assert (Hlen : length l' = length l).
  { apply (f_equal length) in He. rewrite !length_fmap in He. exact He. }
  apply (f_equal (fun k => k !! i)) in He. rewrite !list_lookup_fmap in He.
  rewrite !list_lookup_total_alt.
  destruct (l' !! i) as [c' |] eqn:E', (l !! i) as [c |] eqn:E;
    cbn in He; try discriminate.
  - injection He as Hr Ha _ _ _. cbn. split; assumption.
  - split; reflexivity.
Qed.

(** [handleContact] stores to [Position] and [Rotation] of the contact's
    two entities and nowhere else. *)
Lemma handleContact_writes (ctx : Context) (obj_mgr : ObjectManager)
    (contact : Contact) :
  exists (x1 x2 : Vector3) (q1 q2 : Quat) (l : float),
    handleContact ctx obj_mgr contact
    = (set_Rotation
         (set_Rotation
            (set_Position (set_Position ctx (ref contact) x1) (alt contact) x2)
            (ref contact) q1)
         (alt contact) q2,
       set_lambdaN contact l).
Proof.
  unfold handleContact. cbv zeta.
  destruct (fold_left _ _ _) as [[st ln] lt].
  exists (ps_x1 st), (ps_x2 st), (ps_q1 st), (ps_q2 st), ln. reflexivity.
Qed.

Lemma same_solver_up_to_lambdaN_refl (s : SolverData) :
  same_solver_up_to_lambdaN s s.
Proof. unfold same_solver_up_to_lambdaN. repeat split. Qed.

(** The body of the loop of [solvePositions]. *)
Lemma solvePositions_step_frame (obj_mgr : ObjectManager) (ctx0 ctx : Context)
    (i : nat) :
  position_solve_frame ctx0 ctx ->
  let c := contacts (ctx_solver ctx) !!! i in
  let ctx1 :=
    (let '(ctx, contact) := handleContact ctx obj_mgr c in
     let solver := ctx_solver ctx in
     set_solver ctx
       (set_contacts solver
          (<[i := set_lambdaN (contacts solver !!! i) (lambdaN contact)]>
             (contacts solver)))) in
  position_solve_frame ctx0 ctx1
  /\ forall e,
       ref (contacts (ctx_solver ctx0) !!! i) <> e ->
       alt (contacts (ctx_solver ctx0) !!! i) <> e ->
       ctx_Position ctx1 !! e = ctx_Position ctx !! e
       /\ ctx_Rotation ctx1 !! e = ctx_Rotation ctx !! e.
Proof.
  cbv zeta. intros Hfr.
  destruct (handleContact_writes ctx obj_mgr (contacts (ctx_solver ctx) !!! i))
    as (x1 & x2 & q1 & q2 & l & ->).
  destruct Hfr as (H1 & H2 & H3 & H4 & H5 & H6 & H7 & H8 & He & Hs).
  split.
  - unfold position_solve_frame. cbn.
    repeat (split; [assumption |]).
    unfold same_solver_up_to_lambdaN. cbn.
    split; [| exact Hs]. rewrite erase_lambdaN_set. exact He.
  - intros e Hr Ha.
    destruct (erase_lambdaN_lookup _ _ i He) as [Href Halt].
    rewrite <- Href in Hr. rewrite <- Halt in Ha.
    cbn. rewrite !lookup_insert_ne by assumption. auto.
Qed.

Lemma solvePositions_loop_frame (obj_mgr : ObjectManager)
    (idxs : list nat) (ctx0 ctx : Context) :
  position_solve_frame ctx0 ctx ->
  let ctx' :=
    fold_left
      (fun ctx i =>
         let contact := contacts (ctx_solver ctx) !!! i in
         let '(ctx, contact) := handleContact ctx obj_mgr contact in
         let solver := ctx_solver ctx in
         set_solver ctx
           (set_contacts solver
              (<[i := set_lambdaN (contacts solver !!! i)
                                  (lambdaN contact)]>
                 (contacts solver))))
      idxs ctx in
  position_solve_frame ctx0 ctx'
  /\ forall e,
       (forall i, In i idxs ->
                  ref (contacts (ctx_solver ctx0) !!! i) <> e
                  /\ alt (contacts (ctx_solver ctx0) !!! i) <> e) ->
       ctx_Position ctx' !! e = ctx_Position ctx !! e
       /\ ctx_Rotation ctx' !! e = ctx_Rotation ctx !! e.
Proof.
  cbv zeta. revert ctx.
  induction idxs as [|i idxs IH]; intros ctx Hfr; cbn [fold_left].
  - auto.
  - destruct (solvePositions_step_frame obj_mgr ctx0 ctx i Hfr)
      as [Hfr1 Hun1].
    cbv zeta in Hfr1, Hun1.
    specialize (IH _ Hfr1). destruct IH as [Hfr' Hun'].
    split; [exact Hfr' |].
    intros e Hfree.
    destruct (Hfree i (or_introl eq_refl)) as [Hr Ha].
    destruct (Hun1 e Hr Ha) as [Hp1 Hq1].
    destruct (Hun' e (fun j Hj => Hfree j (or_intror Hj))) as [Hp' Hq'].
    rewrite Hp', Hq'. auto.
Qed.

(** X8: [solvePositions] writes [Position] and [Rotation] of the entities
    that are [ref] or [alt] of a counted contact, and the [lambdaN] of
    the contacts; every other component store, the events, the count and
    capacity, and the [ref], [alt], points, point count and normal of
    every contact are left as they were, and a body no counted contact
    mentions keeps its position and rotation. *)
Theorem solvePositions_frame (ctx : Context) (e : Entity) :
  position_solve_frame ctx (solvePositions ctx)
  /\ (~ involved (ctx_solver ctx) e ->
      ctx_Position (solvePositions ctx) !! e = ctx_Position ctx !! e
      /\ ctx_Rotation (solvePositions ctx) !! e = ctx_Rotation ctx !! e).
Proof.
  unfold solvePositions.
  assert (Hfr0 : position_solve_frame ctx ctx).
  { unfold position_solve_frame.
    repeat (split; [reflexivity |]). apply same_solver_up_to_lambdaN_refl. }
  destruct (solvePositions_loop_frame (ctx_objMgr ctx)
              (seq 0 (Z.to_nat (numContacts (ctx_solver ctx)))) ctx ctx Hfr0)
    as [Hfr Hun].
  split; [exact Hfr |].
  intros Hni. apply Hun. intros i Hi.
  apply in_seq in Hi.
  split; intros Heq; apply Hni; exists i; (split; [lia | auto]).
Qed.

Lemma updateVelocityFromContact_writes (ctx : Context)
    (obj_mgr : ObjectManager) (contact : Contact) (hh thr : float) :
  exists v1 v2 : Velocity,
    updateVelocityFromContact ctx obj_mgr contact hh thr
    = set_Velocity (set_Velocity ctx (ref contact) v1) (alt contact) v2.
Proof. unfold updateVelocityFromContact. cbv zeta. eauto. Qed.

Lemma solveVelocities_loop_frame (obj_mgr : ObjectManager) (s0 : SolverData)
    (hh thr : float) (idxs : list nat) (ctx0 ctx : Context) :
  velocity_solve_frame ctx0 (set_solver ctx (set_numContacts (ctx_solver ctx) 0)) ->
  let ctx' :=
    fold_left
      (fun ctx i =>
         updateVelocityFromContact ctx obj_mgr (contacts s0 !!! i) hh thr)
      idxs ctx in
  velocity_solve_frame ctx0
    (set_solver ctx' (set_numContacts (ctx_solver ctx') 0))
  /\ forall e,
       (forall i, In i idxs ->
                  ref (contacts s0 !!! i) <> e /\ alt (contacts s0 !!! i) <> e) ->
       ctx_Velocity ctx' !! e = ctx_Velocity ctx !! e.
Proof.
  cbv zeta. revert ctx.
  induction idxs as [|i idxs IH]; intros ctx Hfr; cbn [fold_left].
  - auto.
  - destruct (updateVelocityFromContact_writes ctx obj_mgr
                (contacts s0 !!! i) hh thr) as (v1 & v2 & ->).
    match goal with
    | |- context [fold_left ?f idxs ?c1] => specialize (IH c1)
    end.
    destruct IH as [Hfr' Hun']; [exact Hfr |].
    split; [exact Hfr' |].
    intros e Hfree.
    destruct (Hfree i (or_introl eq_refl)) as [Hr Ha].
    rewrite (Hun' e (fun j Hj => Hfree j (or_intror Hj))).
    cbn. rewrite !lookup_insert_ne by assumption. reflexivity.
Qed.

(** X9: [solveVelocities] resets the contact count to 0 and keeps the
    buffer itself; it writes [Velocity] of the entities that are [ref] or
    [alt] of a counted contact and nothing else: positions, rotations and
    every other store are left as they were, a body no counted contact
    mentions keeps its velocity, and a well-formed solver comes out
    well-formed with all of its capacity free. *)
Theorem solveVelocities_frame (ctx : Context) (e : Entity) :
  velocity_solve_frame ctx (solveVelocities ctx)
  /\ (~ involved (ctx_solver ctx) e ->
      ctx_Velocity (solveVelocities ctx) !! e = ctx_Velocity ctx !! e)
  /\ (solver_wf (ctx_solver ctx) ->
      solver_ok (ctx_solver (solveVelocities ctx))
      /\ numContacts (ctx_solver (solveVelocities ctx)) = 0
      /\ contacts (ctx_solver (solveVelocities ctx))
         = contacts (ctx_solver ctx)).
Proof.
  unfold solveVelocities. cbv zeta.
  assert (Hfr0 : velocity_solve_frame ctx
                   (set_solver ctx (set_numContacts (ctx_solver ctx) 0))).
  { unfold velocity_solve_frame. cbn. repeat split. }
  destruct (solveVelocities_loop_frame (ctx_objMgr ctx) (ctx_solver ctx)
              (h (ctx_solver ctx)) (restitutionThreshold (ctx_solver ctx))
              (seq 0 (Z.to_nat (numContacts (ctx_solver ctx)))) ctx ctx Hfr0)
    as [Hfr Hun].
  cbv zeta in Hfr, Hun.
  split; [exact Hfr |]. split.
  - intros Hni. cbn. apply Hun. intros i Hi. apply in_seq in Hi.
    split; intros Heq; apply Hni; exists i; (split; [lia | auto]).
  - intros (Hlen & Hn & Hmax).
    destruct Hfr as (_ & _ & _ & _ & _ & _ & _ & _ & _ & Hs).
    rewrite Hs. cbn. unfold solver_ok, solver_wf. cbn.
    repeat split; lia.
Qed.

End SolveFrames.

(** ** Contacts that move nothing, bodies that cannot be moved *)

Section SolveEdges.

Context {M : MathOps}.

(** X10: a contact without points, or one whose every point has a
    constraint value [d <= 0] at the poses the solve starts from, is
    skipped whole: [handleContact] leaves every position and rotation as
    it reads it and reports [lambdaN = 0]. *)
Theorem handleContact_separated (ctx : Context) (obj_mgr : ObjectManager)
    (contact : Contact) :
  (forall i : nat, (i < 4)%nat -> Z.of_nat i < numPoints contact ->
                   (contact_gap ctx contact i <=? F32.zero)%f32 = true) ->
  let res := handleContact ctx obj_mgr contact in
  (forall e, ctx_Position (fst res) !!! e = ctx_Position ctx !!! e)
  /\ (forall e, ctx_Rotation (fst res) !!! e = ctx_Rotation ctx !!! e)
  /\ snd res = set_lambdaN contact F32.zero.
Proof.
  intros Hsep. cbv zeta. unfold handleContact. cbv zeta.
  set (init := ({| ps_x1 := ctx_Position ctx !!! ref contact;
                   ps_x2 := ctx_Position ctx !!! alt contact;
                   ps_q1 := ctx_Rotation ctx !!! ref contact;
                   ps_q2 := ctx_Rotation ctx !!! alt contact |},
                F32.zero, F32.zero)).
  assert (Hstep : forall i : nat, (i < 4)%nat ->
            handleContactPoint contact
              (ctx_PrevState ctx !!! ref contact)
              (ctx_PrevState ctx !!! alt contact)
              (ctx_StartState ctx !!! ref contact)
              (ctx_StartState ctx !!! alt contact)
              (metadata obj_mgr !!! (ctx_ObjectID ctx !!! ref contact))
              (metadata obj_mgr !!! (ctx_ObjectID ctx !!! alt contact))
              init i = init).
  { intros i Hi. unfold handleContactPoint, init.
    destruct (numPoints contact <=? Z.of_nat i) eqn:Hg; [reflexivity |].
    apply Z.leb_gt in Hg. specialize (Hsep i Hi Hg).
    unfold contact_gap in Hsep.
    destruct (getLocalSpaceContacts _ _ contact i) as [r1 r2].
    unfold handleContactConstraint. cbn [ps_x1 ps_x2 ps_q1 ps_q2].
    rewrite Hsep. reflexivity. }
  cbn [fold_left].
  rewrite !Hstep by lia. unfold init. cbn.
  repeat split.
  - intros e.
    destruct (decide (alt contact = e)) as [<- | Hne2].
    + apply lookup_total_insert_eq.
    + rewrite lookup_total_insert_ne by exact Hne2.
      destruct (decide (ref contact = e)) as [<- | Hne1].
      * apply lookup_total_insert_eq.
      * apply lookup_total_insert_ne. exact Hne1.
  - intros e.
    destruct (decide (alt contact = e)) as [<- | Hne2].
    + apply lookup_total_insert_eq.
    + rewrite lookup_total_insert_ne by exact Hne2.
      destruct (decide (ref contact = e)) as [<- | Hne1].
      * apply lookup_total_insert_eq.
      * apply lookup_total_insert_ne. exact Hne1.
Qed.

Lemma F32_zero_mul_kept (x inv y : float) :
  F32.is_zero inv = true -> coord_kept_or_nan x (x + inv * y)%f32.
Proof.
  intros Hz. destruct inv as [s | | |]; try discriminate.
  apply F32_add_zero_kept, F32_mul_zero_l.
Qed.

Lemma F32_zero_mul_kept_sub (x inv y : float) :
  F32.is_zero inv = true -> coord_kept_or_nan x (x - inv * y)%f32.
Proof.
  intros Hz. destruct inv as [s | | |]; try discriminate.
  apply F32_sub_zero_kept, F32_mul_zero_l.
Qed.

Lemma is_static_zero (md : RigidBodyMetadata) :
  is_static md ->
  (exists s, invMass md = S754_zero s)
  /\ F32.is_zero (v3_x (invInertiaTensor md)) = true
  /\ F32.is_zero (v3_y (invInertiaTensor md)) = true
  /\ F32.is_zero (v3_z (invInertiaTensor md)) = true.
Proof.
  intros [Hm Hz]. unfold v3_is_zero in Hz.
  apply andb_prop in Hz as [Hz Hz3]. apply andb_prop in Hz as [Hz1 Hz2].
  split; [apply F32_eqb_zero, Hm | auto].
Qed.

Lemma applyVelocityUpdate_static (st : VelState) (r1 r2 : Vector3)
    (md1 md2 : RigidBodyMetadata) (dw dl1 dl2 : Vector3) (mag : float) :
  let st' :=
    applyVelocityUpdate st r1 r2 (invMass md1) (invMass md2)
      (invInertiaTensor md1) (invInertiaTensor md2) dw dl1 dl2 mag in
  (is_static md1 ->
   v3_all2 coord_kept_or_nan (vs_v1 st) (vs_v1 st')
   /\ v3_all2 coord_kept_or_nan (vs_omega1 st) (vs_omega1 st'))
  /\ (is_static md2 ->
      v3_all2 coord_kept_or_nan (vs_v2 st) (vs_v2 st')
      /\ v3_all2 coord_kept_or_nan (vs_omega2 st) (vs_omega2 st')).
Proof.
  cbv zeta. unfold applyVelocityUpdate.
  split; intros Hst; apply is_static_zero in Hst as ([s Hs] & Hx & Hy & Hz);
    rewrite Hs; cbn [vs_v1 vs_v2 vs_omega1 vs_omega2];
    unfold v3_add, v3_sub, v3_mulf, multDiag; cbn [v3_x v3_y v3_z];
    (split; repeat split;
     first [ apply F32_add_zero_kept, F32_mul_zero_r
           | apply F32_sub_zero_kept, F32_mul_zero_r
           | apply F32_zero_mul_kept; assumption
           | apply F32_zero_mul_kept_sub; assumption ]).
Qed.

Lemma vel_kept1_refl (st : VelState) : vel_kept1 st st.
Proof. split; apply v3_kept_refl. Qed.
Lemma vel_kept2_refl (st : VelState) : vel_kept2 st st.
Proof. split; apply v3_kept_refl. Qed.
Lemma vel_kept1_trans (a b c : VelState) :
  vel_kept1 a b -> vel_kept1 b c -> vel_kept1 a c.
Proof. intros [? ?] [? ?]. split; eapply v3_kept_trans; eauto. Qed.
Lemma vel_kept2_trans (a b c : VelState) :
  vel_kept2 a b -> vel_kept2 b c -> vel_kept2 a c.
Proof. intros [? ?] [? ?]. split; eapply v3_kept_trans; eauto. Qed.

Lemma updateVelocityPoint_static (contact : Contact) (q1 q2 : Quat)
    (start1 start2 : SubstepStartState)
    (prev_vel1 prev_vel2 : SubstepVelocityState)
    (md1 md2 : RigidBodyMetadata) (dyn thr : float) (st : VelState)
    (i : nat) :
  let st' :=
    updateVelocityPoint contact q1 q2 start1 start2 prev_vel1 prev_vel2
                        md1 md2 dyn thr st i in
  (is_static md1 -> vel_kept1 st st') /\ (is_static md2 -> vel_kept2 st st').
Proof.
  cbv zeta. unfold updateVelocityPoint.
  destruct (numPoints contact <=? Z.of_nat i);
    [split; intros _; [apply vel_kept1_refl | apply vel_kept2_refl] |].
  destruct (getLocalSpaceContacts start1 start2 contact i) as [r1 r2].
  match goal with
  | |- context [frictionUpdate st ?a ?b ?c ?d ?e ?f ?g ?h] =>
      set (st1 := frictionUpdate st a b c d e f g h)
  end.
  assert (Hf : (is_static md1 -> vel_kept1 st st1)
               /\ (is_static md2 -> vel_kept2 st st1)).
  { subst st1. unfold frictionUpdate.
    match goal with |- context [if ?c then _ else _] => destruct c end;
      [| split; intros _; [apply vel_kept1_refl | apply vel_kept2_refl]].
    apply applyVelocityUpdate_static. }
  match goal with
  | |- context [applyVelocityUpdate st1 ?a ?b _ _ _ _ ?c ?d ?e ?f] =>
      pose proof (applyVelocityUpdate_static st1 a b md1 md2 c d e f) as Hr
  end.
  cbv zeta in Hr. destruct Hf as [Hf1 Hf2], Hr as [Hr1 Hr2].
  split; intros Hst.
  - exact (vel_kept1_trans _ _ _ (Hf1 Hst) (Hr1 Hst)).
  - exact (vel_kept2_trans _ _ _ (Hf2 Hst) (Hr2 Hst)).
Qed.

Lemma updateVelocity_loop_static (contact : Contact) (q1 q2 : Quat)
    (start1 start2 : SubstepStartState)
    (prev_vel1 prev_vel2 : SubstepVelocityState)
    (md1 md2 : RigidBodyMetadata) (dyn thr : float) (idxs : list nat)
    (st : VelState) :
  let st' :=
    fold_left (updateVelocityPoint contact q1 q2 start1 start2 prev_vel1
                 prev_vel2 md1 md2 dyn thr) idxs st in
  (is_static md1 -> vel_kept1 st st') /\ (is_static md2 -> vel_kept2 st st').
Proof.
  cbv zeta. revert st.
  induction idxs as [|i idxs IH]; intros st; cbn [fold_left].
  - split; intros _; [apply vel_kept1_refl | apply vel_kept2_refl].
  - destruct (updateVelocityPoint_static contact q1 q2 start1 start2
                prev_vel1 prev_vel2 md1 md2 dyn thr st i) as [S1 S2].
    cbv zeta in S1, S2.
    destruct (IH (updateVelocityPoint contact q1 q2 start1 start2 prev_vel1
                    prev_vel2 md1 md2 dyn thr st i)) as [I1 I2].
    split; intros Hst.
    + exact (vel_kept1_trans _ _ _ (S1 Hst) (I1 Hst)).
    + exact (vel_kept2_trans _ _ _ (S2 Hst) (I2 Hst)).
Qed.

Lemma velocity_kept_refl (v : Velocity) : velocity_kept v v.
Proof. split; apply v3_kept_refl. Qed.

Lemma velocity_kept_trans (a b c : Velocity) :
  velocity_kept a b -> velocity_kept b c -> velocity_kept a c.
Proof. intros [? ?] [? ?]. split; eapply v3_kept_trans; eauto. Qed.

Lemma updateVelocityFromContact_static (ctx : Context)
    (obj_mgr : ObjectManager) (contact : Contact) (hh thr : float)
    (e : Entity) :
  is_static (metadata_of ctx obj_mgr e) ->
  velocity_kept
    (ctx_Velocity ctx !!! e)
    (ctx_Velocity (updateVelocityFromContact ctx obj_mgr contact hh thr) !!! e)
  /\ ctx_ObjectID (updateVelocityFromContact ctx obj_mgr contact hh thr)
     = ctx_ObjectID ctx.
Proof.
  unfold metadata_of. intros Hst.
  unfold updateVelocityFromContact. cbv zeta.
  match goal with
  | |- context [fold_left (updateVelocityPoint ?c ?a1 ?a2 ?s1 ?s2 ?p1 ?p2
                             ?m1 ?m2 ?d ?t) ?l ?a] =>
      pose proof (updateVelocity_loop_static c a1 a2 s1 s2 p1 p2 m1 m2 d t
                    l a) as Hl;
      set (st := fold_left (updateVelocityPoint c a1 a2 s1 s2 p1 p2 m1 m2
                              d t) l a) in *
  end.
  cbv zeta in Hl. destruct Hl as [H1 H2].
  split; [| reflexivity]. cbn.
  destruct (decide (alt contact = e)) as [<- | Hne2].
  - rewrite lookup_total_insert_eq. exact (H2 Hst).
  - rewrite lookup_total_insert_ne by exact Hne2.
    destruct (decide (ref contact = e)) as [<- | Hne1].
    + rewrite lookup_total_insert_eq. exact (H1 Hst).
    + rewrite lookup_total_insert_ne by exact Hne1.
      apply velocity_kept_refl.
Qed.

(** X11: a body with [invMass = 0] and a zero inverse inertia tensor
    gains no velocity in the velocity solve: after [solveVelocities]
    every coordinate of its linear and of its angular velocity is what
    it was (up to the sign of a zero) or a NaN, whatever contacts the
    buffer holds. *)
Theorem solveVelocities_static (ctx : Context) (e : Entity) :
  is_static (metadata_of ctx (ctx_objMgr ctx) e) ->
  velocity_kept (ctx_Velocity ctx !!! e)
                (ctx_Velocity (solveVelocities ctx) !!! e).
Proof.
  intros Hst. unfold solveVelocities. cbv zeta. cbn [ctx_Velocity set_solver].
  generalize (seq 0 (Z.to_nat (numContacts (ctx_solver ctx)))).
  intros idxs.
  assert (Hgen : forall ctx1,
            ctx_ObjectID ctx1 = ctx_ObjectID ctx ->
            velocity_kept (ctx_Velocity ctx1 !!! e)
              (ctx_Velocity
                 (fold_left
                    (fun ctx0 i =>
                       updateVelocityFromContact ctx0 (ctx_objMgr ctx)
                         (contacts (ctx_solver ctx) !!! i)
                         (h (ctx_solver ctx))
                         (restitutionThreshold (ctx_solver ctx)))
                    idxs ctx1) !!! e)).
  { induction idxs as [|i idxs IH]; intros ctx1 Hid; cbn [fold_left].
    - apply velocity_kept_refl.
    - destruct (updateVelocityFromContact_static ctx1 (ctx_objMgr ctx)
                  (contacts (ctx_solver ctx) !!! i) (h (ctx_solver ctx))
                  (restitutionThreshold (ctx_solver ctx)) e) as [Hk Hid'].
      { unfold metadata_of in *. rewrite Hid. exact Hst. }
      eapply velocity_kept_trans; [exact Hk |].
      apply IH. congruence. }
  apply Hgen. reflexivity.
Qed.

End SolveEdges.

(** ** One substep of a world *)

Section WorldStep.

Context {M : MathOps} {G : SATOps}.

Lemma node_frame_fold (f : Context -> Entity -> Context)
    (entities : list Entity) (ctx : Context) :
  (forall c e, node_frame c (f c e)) ->
  node_frame ctx (fold_left f entities ctx).
Proof.
  intros Hf. revert ctx.
  induction entities as [|e entities IH]; intros ctx; cbn [fold_left].
  - unfold node_frame. repeat split.
  - destruct (IH (f ctx e)) as (H1 & H2 & H3 & H4 & H5).
    destruct (Hf ctx e) as (K1 & K2 & K3 & K4 & K5).
    unfold node_frame. repeat split; congruence.
Qed.

Lemma substepRigidBodiesNode_frame (ctx : Context) (e : Entity) :
  node_frame ctx (substepRigidBodiesNode ctx e).
Proof. unfold node_frame, substepRigidBodiesNode. cbn. repeat split. Qed.

Lemma setVelocitiesNode_frame (ctx : Context) (e : Entity) :
  node_frame ctx (setVelocitiesNode ctx e).
Proof. unfold node_frame, setVelocitiesNode. cbn. repeat split. Qed.

Lemma solvePositions_keeps (ctx : Context) :
  position_solve_frame ctx (solvePositions ctx).
Proof.
  unfold solvePositions.
  apply (solvePositions_loop_frame (ctx_objMgr ctx)).
  unfold position_solve_frame.
  repeat (split; [reflexivity |]). apply same_solver_up_to_lambdaN_refl.
Qed.

Lemma solveVelocities_resets (ctx : Context) :
  velocity_solve_frame ctx (solveVelocities ctx).
Proof.
  unfold solveVelocities. cbv zeta.
  apply (solveVelocities_loop_frame (ctx_objMgr ctx) (ctx_solver ctx)).
  unfold velocity_solve_frame. cbn. repeat split.
Qed.

Lemma erase_lambdaN_length (l l' : list Contact) :
  erase_lambdaN l' = erase_lambdaN l -> length l' = length l.
Proof.
  unfold erase_lambdaN. intros He.
  apply (f_equal length) in He. rewrite !length_map in He. exact He.
Qed.

(** X12: one substep of a world (integrate every body, narrowphase over
    the candidates, position solve, velocity reconstruction, velocity
    solve), started on a solver whose count is within its capacity: it
    never stores outside the contact buffer; it fails an assert only if a
    candidate is a sphere/hull pair or the free slots are fewer than the
    candidates; and when it completes the contact count is back to 0 on a
    well-formed solver of the same capacity, the object catalogue, object
    ids and scales are untouched and events were only added. *)
Theorem substepWorld_resets (ctx : Context) (entities : list Entity)
    (candidates : list CandidateCollision) :
  solver_ok (ctx_solver ctx) ->
  match substepWorld ctx entities candidates with
  | Done ctx' =>
      numContacts (ctx_solver ctx') = 0
      /\ solver_ok (ctx_solver ctx')
      /\ maxContacts (ctx_solver ctx') = maxContacts (ctx_solver ctx)
      /\ ctx_objMgr ctx' = ctx_objMgr ctx
      /\ ctx_ObjectID ctx' = ctx_ObjectID ctx
      /\ ctx_Scale ctx' = ctx_Scale ctx
      /\ (exists evs, ctx_events ctx' = ctx_events ctx ++ evs)
  | AssertFailed =>
      (exists cc, In cc candidates /\ sphere_hull_pair ctx cc)
      \/ maxContacts (ctx_solver ctx) - numContacts (ctx_solver ctx)
         < Z.of_nat (length candidates)
  | BufferOverrun _ | Unreachable => False
  end.
Proof.
  intros Hok. unfold substepWorld. cbv zeta.
  set (ctx1 := fold_left substepRigidBodiesNode entities ctx).
  destruct (node_frame_fold substepRigidBodiesNode entities ctx
              substepRigidBodiesNode_frame) as (F1 & F2 & F3 & F4 & F5).
  fold ctx1 in F1, F2, F3, F4, F5.
  assert (Hok1 : solver_ok (ctx_solver ctx1)) by (rewrite F1; exact Hok).
  pose proof (runNarrowphaseAll_steps candidates ctx1 Hok1) as Hnp.
  destruct (runNarrowphaseAll ctx1 candidates) as [ctx2 | | |];
    cbn [obind]; try contradiction.
  - destruct Hnp as (Hc & Hok2 & Hm2 & Hn2 & _ & evs & He2).
    destruct Hc as (_ & _ & C3 & _ & C5 & _ & _ & _ & C9).
    set (ctx3 := solvePositions ctx2).
    destruct (solvePositions_keeps ctx2)
      as (P1 & _ & P3 & _ & _ & _ & P7 & P8 & Pe & Pn & Pm & _).
    fold ctx3 in P1, P3, P7, P8, Pe, Pn, Pm.
    set (ctx4 := fold_left setVelocitiesNode entities ctx3).
    destruct (node_frame_fold setVelocitiesNode entities ctx3
                setVelocitiesNode_frame) as (S1 & S2 & S3 & S4 & S5).
    fold ctx4 in S1, S2, S3, S4, S5.
    destruct (solveVelocities_resets ctx4)
      as (_ & _ & V3 & V4 & _ & _ & _ & V8 & V9 & Vs).
    rewrite Vs, V3, V4, V8, V9, S1, S2, S3, S4, S5, P1, P3, P7, P8,
            C3, C5, C9, F2, F3, F4, He2, F5.
    cbn [numContacts maxContacts contacts set_numContacts].
    rewrite Pm, Hm2, F1.
    destruct Hok2 as ((L2 & N2 & M2) & _).
    apply erase_lambdaN_length in Pe.
    split; [reflexivity |]. split.
    { unfold solver_ok, solver_wf.
      cbn [numContacts maxContacts contacts set_numContacts].
      rewrite Pe, Pm. rewrite Hm2, F1 in *. repeat split; lia. }
    repeat split; try reflexivity.
    exists evs. reflexivity.
  - destruct Hnp as [(cc & Hin & Hp) | Hfew].
    + left. exists cc. split; [exact Hin |].
      unfold sphere_hull_pair, prim_of in *. rewrite <- F2, <- F3. exact Hp.
    + right. rewrite F1 in Hfew. exact Hfew.
Qed.

End WorldStep.

(** ** The per-entity stages do not interfere *)

Section NodesCommute.

Context {M : MathOps}.

(** Two worlds with the same components and singletons are the same. *)
Lemma Context_ext (c1 c2 : Context) :
  ctx_Position c1 = ctx_Position c2 ->
  ctx_Rotation c1 = ctx_Rotation c2 ->
  ctx_Scale c1 = ctx_Scale c2 ->
  ctx_Velocity c1 = ctx_Velocity c2 ->
  ctx_ObjectID c1 = ctx_ObjectID c2 ->
  ctx_PrevState c1 = ctx_PrevState c2 ->
  ctx_StartState c1 = ctx_StartState c2 ->
  ctx_VelocityState c1 = ctx_VelocityState c2 ->
  ctx_solver c1 = ctx_solver c2 ->
  ctx_objMgr c1 = ctx_objMgr c2 ->
  ctx_events c1 = ctx_events c2 ->
  c1 = c2.
Proof.
  destruct c1, c2. cbn. intros. subst. reflexivity.
Qed.

(** [substepRigidBodies] reads the solver and the object catalogue of the
    world, nothing else. *)
Lemma substepRigidBodies_reads (ctx ctx' : Context) (pos : Vector3)
    (rot : Quat) (vel : Velocity) (obj_id : nat) :
  ctx_solver ctx' = ctx_solver ctx ->
  ctx_objMgr ctx' = ctx_objMgr ctx ->
  substepRigidBodies ctx' pos rot vel obj_id
  = substepRigidBodies ctx pos rot vel obj_id.
Proof.
  intros Hs Ho. unfold substepRigidBodies. rewrite Hs, Ho. reflexivity.
Qed.

(** What the node for [e] writes, component by component. *)
Lemma substepRigidBodiesNode_fields (ctx : Context) (e : Entity) :
  let out :=
    substepRigidBodies ctx (ctx_Position ctx !!! e) (ctx_Rotation ctx !!! e)
                       (ctx_Velocity ctx !!! e) (ctx_ObjectID ctx !!! e) in
  let ctx' := substepRigidBodiesNode ctx e in
  ctx_Position ctx' = <[e := out_pos out]> (ctx_Position ctx)
  /\ ctx_Rotation ctx' = <[e := out_rot out]> (ctx_Rotation ctx)
  /\ ctx_Scale ctx' = ctx_Scale ctx
  /\ ctx_Velocity ctx' = <[e := out_vel out]> (ctx_Velocity ctx)
  /\ ctx_ObjectID ctx' = ctx_ObjectID ctx
  /\ ctx_PrevState ctx' = <[e := out_prev_state out]> (ctx_PrevState ctx)
  /\ ctx_StartState ctx' = <[e := out_start_state out]> (ctx_StartState ctx)
  /\ ctx_VelocityState ctx'
     = <[e := out_vel_state out]> (ctx_VelocityState ctx)
  /\ ctx_solver ctx' = ctx_solver ctx
  /\ ctx_objMgr ctx' = ctx_objMgr ctx
  /\ ctx_events ctx' = ctx_events ctx.
Proof.
  cbv zeta. repeat apply conj; reflexivity.
Qed.

(** The node for [e1] leaves what the node for another entity computes. *)
Lemma substepRigidBodiesNode_other (ctx : Context) (e1 e2 : Entity) :
  e1 <> e2 ->
  let ctx1 := substepRigidBodiesNode ctx e1 in
  substepRigidBodies ctx1 (ctx_Position ctx1 !!! e2) (ctx_Rotation ctx1 !!! e2)
                     (ctx_Velocity ctx1 !!! e2) (ctx_ObjectID ctx1 !!! e2)
  = substepRigidBodies ctx (ctx_Position ctx !!! e2) (ctx_Rotation ctx !!! e2)
                       (ctx_Velocity ctx !!! e2) (ctx_ObjectID ctx !!! e2).
Proof.
  cbv zeta. intros Hne.
  pose proof (substepRigidBodiesNode_fields ctx e1) as F. cbv zeta in F.
  destruct F as (HP & HR & _ & HV & HO & _ & _ & _ & Hs & Ho & _).
  rewrite HP, HR, HV, HO.
  rewrite !lookup_total_insert_ne by exact Hne.
  apply substepRigidBodies_reads; assumption.
Qed.

(** X13: the calls of [substepRigidBodies] for two different entities
    commute, and so do the calls of [setVelocities]: each call reads and
    writes the components of its own entity only (besides reading the
    solver and the object catalogue), so the order in which a stage
    visits the bodies does not matter. *)
Theorem entity_nodes_commute (ctx : Context) (e1 e2 : Entity) :
  e1 <> e2 ->
  substepRigidBodiesNode (substepRigidBodiesNode ctx e1) e2
  = substepRigidBodiesNode (substepRigidBodiesNode ctx e2) e1
  /\ setVelocitiesNode (setVelocitiesNode ctx e1) e2
     = setVelocitiesNode (setVelocitiesNode ctx e2) e1.
Proof.
  intros Hne.
  assert (Hne' : e2 <> e1) by congruence.
  split.
  - pose proof (substepRigidBodiesNode_fields
                  (substepRigidBodiesNode ctx e1) e2) as F12.
    pose proof (substepRigidBodiesNode_fields
                  (substepRigidBodiesNode ctx e2) e1) as F21.
    cbv zeta in F12, F21.
    rewrite (substepRigidBodiesNode_other ctx e1 e2 Hne) in F12.
    rewrite (substepRigidBodiesNode_other ctx e2 e1 Hne') in F21.
    pose proof (substepRigidBodiesNode_fields ctx e1) as F1.
    pose proof (substepRigidBodiesNode_fields ctx e2) as F2.
    cbv zeta in F1, F2.
    destruct F12 as (A1 & A2 & A3 & A4 & A5 & A6 & A7 & A8 & A9 & A10 & A11).
    destruct F21 as (B1 & B2 & B3 & B4 & B5 & B6 & B7 & B8 & B9 & B10 & B11).
    destruct F1 as (C1 & C2 & C3 & C4 & C5 & C6 & C7 & C8 & C9 & C10 & C11).
    destruct F2 as (D1 & D2 & D3 & D4 & D5 & D6 & D7 & D8 & D9 & D10 & D11).
    apply Context_ext.
    + rewrite A1, B1, C1, D1. apply insert_insert_ne. exact Hne'.
    + rewrite A2, B2, C2, D2. apply insert_insert_ne. exact Hne'.
    + rewrite A3, B3, C3, D3. reflexivity.
    + rewrite A4, B4, C4, D4. apply insert_insert_ne. exact Hne'.
    + rewrite A5, B5, C5, D5. reflexivity.
    + rewrite A6, B6, C6, D6. apply insert_insert_ne. exact Hne'.
    + rewrite A7, B7, C7, D7. apply insert_insert_ne. exact Hne'.
    + rewrite A8, B8, C8, D8. apply insert_insert_ne. exact Hne'.
    + rewrite A9, B9, C9, D9. reflexivity.
    + rewrite A10, B10, C10, D10. reflexivity.
    + rewrite A11, B11, C11, D11. reflexivity.
  - unfold setVelocitiesNode, set_Velocity.
    cbn [ctx_Position ctx_Rotation ctx_Scale ctx_Velocity ctx_ObjectID
         ctx_PrevState ctx_StartState ctx_VelocityState ctx_solver
         ctx_objMgr ctx_events].
    rewrite !(lookup_total_insert_ne _ e1 e2) by exact Hne.
    rewrite !(lookup_total_insert_ne _ e2 e1) by exact Hne'.
    unfold setVelocities. cbn [ctx_solver].
    f_equal. apply insert_insert_ne. exact Hne'.
Qed.

End NodesCommute.

(** ** The task graph *)

Section TaskGraph.

Lemma addToGraph_spec (builder : Builder) (kind : NodeKind)
    (deps : list NodeID) :
  addToGraph builder kind deps
  = (length builder, builder ++ chain (length builder) deps [kind]).
Proof. reflexivity. Qed.

Lemma chain_app_gen (ks1 ks2 : list NodeKind) (id : NodeID)
    (deps : list NodeID) :
  chain id deps (ks1 ++ ks2)
  = chain id deps ks1
    ++ chain (id + length ks1)%nat
             (match ks1 with
              | [] => deps
              | _ :: ks => [(id + length ks)%nat]
              end) ks2.
Proof.
  revert id deps.
  induction ks1 as [|k1 ks1 IH]; intros id deps.
  - cbn. rewrite Nat.add_0_r. reflexivity.
  - cbn [app chain length]. f_equal. rewrite IH. f_equal.
    replace (S id + length ks1)%nat with (id + S (length ks1))%nat by lia.
    f_equal. destruct ks1 as [|k2 ks1]; cbn [length]; f_equal; lia.
Qed.

Lemma chain_app (ks1 ks2 : list NodeKind) (k : NodeKind) (id : NodeID)
    (deps : list NodeID) :
  chain id deps ((k :: ks1) ++ ks2)
  = chain id deps (k :: ks1)
    ++ chain (id + S (length ks1))%nat [(id + length ks1)%nat] ks2.
Proof. apply chain_app_gen. Qed.

Lemma setupSubstep_chain (cur_node : NodeID) (builder : Builder) :
  setupSubstep (cur_node, builder)
  = ((length builder + 5)%nat,
     builder ++ chain (length builder) [cur_node] substepKinds).
Proof.
  unfold setupSubstep, addToGraph. cbn.
  rewrite !length_app. cbn.
  rewrite <- !app_assoc. cbn.
  replace (length builder + 1 + 1 + 1 + 1 + 1)%nat
    with (length builder + 5)%nat by lia.
  replace (length builder + 1 + 1 + 1 + 1)%nat
    with (S (S (S (S (length builder))))) by lia.
  replace (length builder + 1 + 1 + 1)%nat
    with (S (S (S (length builder)))) by lia.
  replace (length builder + 1 + 1)%nat
    with (S (S (length builder))) by lia.
  replace (length builder + 1)%nat with (S (length builder)) by lia.
  reflexivity.
Qed.

Lemma chain_length (kinds : list NodeKind) (id : NodeID)
    (deps : list NodeID) :
  length (chain id deps kinds) = length kinds.
Proof.
  revert id deps. induction kinds as [|k ks IH]; intros id deps; cbn;
    [reflexivity | rewrite IH; reflexivity].
Qed.

Lemma iter_setupSubstep_chain (n : nat) (cur_node : NodeID)
    (builder : Builder) :
  Nat.iter n setupSubstep (cur_node, builder)
  = (match n with
     | O => cur_node
     | S _ => (length builder + 6 * n - 1)%nat
     end,
     builder
     ++ chain (length builder) [cur_node] (concat (replicate n substepKinds))).
Proof.
  revert cur_node builder.
  induction n as [|n IH]; intros cur_node builder.
  - cbn. rewrite app_nil_r. reflexivity.
  - rewrite Nat.iter_succ_r, setupSubstep_chain, IH.
    rewrite length_app, chain_length.
    change (length substepKinds) with 6%nat.
    f_equal.
    + destruct n; lia.
    + rewrite <- app_assoc. f_equal.
      cbn [replicate concat].
      change (substepKinds ++ concat (replicate n substepKinds))
        with ((NodeSubstepRigidBodies
               :: tl substepKinds) ++ concat (replicate n substepKinds)).
      rewrite chain_app. cbn [tl substepKinds length].
      do 2 f_equal.
Qed.

(** X14: [setupTasks] only appends to the builder, and what it appends is
    one chain: the collision-box update (depending on the given [deps]),
    leaf update, BVH update and overlap search, then for each of the
    [num_substeps] substeps the six stages integrate, narrowphase,
    position solve, velocity reconstruction, velocity solve and scratch
    reset, then the clearing of the candidates; every node but the first
    depends on exactly the node registered before it, and the id returned
    is that of the last node.  With [num_substeps <= 0] the chain has
    just the five outer nodes. *)
Theorem setupTasks_chain (builder : Builder) (deps : list NodeID)
    (num_substeps : Z) :
  setupTasks builder deps num_substeps
  = ((length builder + 4 + 6 * Z.to_nat num_substeps)%nat,
     builder
     ++ chain (length builder) deps (stepKinds (Z.to_nat num_substeps))).
Proof.
  unfold setupTasks, addToGraph.
  set (n := Z.to_nat num_substeps).
  rewrite !length_app. cbn [length]. rewrite !Nat.add_1_r.
  rewrite <- !app_assoc. cbn [app].
  rewrite iter_setupSubstep_chain.
  rewrite !length_app. cbn [length].
  assert (Hlen : length (concat (replicate n substepKinds)) = (6 * n)%nat).
  { induction n as [|k IHk]; [reflexivity |].
    cbn [replicate concat]. rewrite length_app, IHk.
    change (length substepKinds) with 6%nat. lia. }
  unfold stepKinds. rewrite !chain_app_gen. rewrite chain_length, Hlen.
  cbn [length chain app].
  replace (length builder + 0)%nat with (length builder) by lia.
  replace (length builder + 1)%nat with (S (length builder)) by lia.
  replace (length builder + 2)%nat with (S (S (length builder))) by lia.
  replace (length builder + 3)%nat with (S (S (S (length builder)))) by lia.
  rewrite <- !app_assoc. cbn [app].
  f_equal. do 6 f_equal.
  destruct n as [|k]; [reflexivity |].
  cbn [replicate concat substepKinds app length].
  cbn [replicate concat substepKinds app length] in Hlen.
  do 3 f_equal. lia.
Qed.

End TaskGraph.


(** ** The swept collision box *)

Section AABBProperties.

Context {R : MatOps}.

Lemma F32_rest_deltas (v delta_t m : float) :
  F32.is_zero v = true -> F32.is_finite delta_t = true ->
  (F32.zero <? m)%f32 = true ->
  (expansion_factor * v * delta_t - m)%f32 = (- m)%f32
  /\ (expansion_factor * v * delta_t + m)%f32 = m
  /\ (- m <? F32.zero)%f32 = true.
Proof.
  intros Hv Ht Hm.
  destruct v as [sv | | |]; try discriminate.
  unfold expansion_factor, F32.two, F32.mul, F32.sub, F32.add, F32.neg,
    F32.ltb, F32.zero in *.
  cbn [SFmul xorb].
  destruct delta_t as [st | | | st mt et]; try discriminate;
    cbn [SFmul];
    destruct m as [sm | [] | | [] mm em]; try discriminate;
    cbn [SFsub SFadd SFopp SFltb SFcompare negb]; auto.
Qed.

Lemma expandAxis_rest (linear_velocity : Vector3) (delta_t m : float)
    (box : AABB) (i : nat) :
  F32.is_zero (v3_get linear_velocity i) = true ->
  F32.is_finite delta_t = true ->
  (F32.zero <? m)%f32 = true ->
  expandAxis linear_velocity delta_t m box i
  = {| pMin := v3_set (pMin box) i (v3_get (pMin box) i + - m)%f32;
       pMax := v3_set (pMax box) i (v3_get (pMax box) i + m)%f32 |}.
Proof.
  intros Hv Ht Hm. unfold expandAxis.
  destruct (F32_rest_deltas _ _ _ Hv Ht Hm) as (-> & -> & ->).
  rewrite Hm. reflexivity.
Qed.

(** X15: for a body at rest (zero linear velocity) the collision box is
    the box of the rotated object box grown on every side by the margin
    [max_accel * deltaT * deltaT], provided [deltaT] is finite and the
    margin is positive: [pMin] moves by [-margin] and [pMax] by [margin]
    on each axis. *)
Theorem updateCollisionAABB_at_rest (ctx : Context) (aabbs : list AABB)
    (pos : Vector3) (rot : Quat) (obj_id : nat) (vel : Velocity) :
  let delta_t := deltaT (ctx_solver ctx) in
  let margin := (max_accel * delta_t * delta_t)%f32 in
  let box := rotatedAABB pos rot (aabbs !!! obj_id) in
  v3_is_zero (linear vel) = true ->
  F32.is_finite delta_t = true ->
  (F32.zero <? margin)%f32 = true ->
  updateCollisionAABB ctx aabbs pos rot obj_id vel
  = {| pMin := v3_add (pMin box) (v3_all (- margin)%f32);
       pMax := v3_add (pMax box) (v3_all margin) |}.
Proof.
  cbv zeta. intros Hz Ht Hm.
  unfold v3_is_zero in Hz.
  apply andb_prop in Hz as [Hz Hz3]. apply andb_prop in Hz as [Hz1 Hz2].
  unfold updateCollisionAABB. cbn [fold_left].
  rewrite !expandAxis_rest by assumption.
  destruct (rotatedAABB pos rot (aabbs !!! obj_id)) as [[a b c] [d e f]].
  reflexivity.
Qed.

End AABBProperties.

(** ** Further evaluations on concrete worlds *)

Section MoreEvaluations.

Import Ref World Cases MoreCases.

Lemma solver2_ok : solver_ok solver2.
Proof. vm_compute. intuition discriminate. Qed.

Lemma fresh_solver_fills_in_order_witness :
  0 <= 2 < 2 ^ 31
  /\ Z.of_nat (length [contact1; contact2]) <= 2
  /\ exists s',
       addContactsSeq solver2 [[contact1]; [contact2]] = Done s'
       /\ solver_wf s'
       /\ numContacts s' = 2
       /\ take 2 (contacts s') = [contact1; contact2]
       /\ (Z.of_nat 2 = 2 -> forall c, addContacts s' [c] = AssertFailed).
Proof.
  assert (H1 : 0 <= 2 < 2 ^ 31) by (vm_compute; intuition discriminate).
  assert (H2 : Z.of_nat (length [contact1; contact2]) <= 2)
    by (vm_compute; discriminate).
  split; [exact H1 |]. split; [exact H2 |].
  exact (fresh_solver_fills_in_order 2 (flt 1) 1 (vec 0 0 (-10))
           [contact1; contact2] H1 H2).
Defined.

Lemma addContacts_empty_and_full_witness :
  solver_wf solver2_last
  /\ (numContacts solver2_last < maxContacts solver2_last ->
      addContacts solver2_last [] = Done solver2_last)
  /\ (numContacts solver2_last = maxContacts solver2_last ->
      forall added, addContacts solver2_last added = AssertFailed).
Proof.
  assert (Hwf : solver_wf solver2_last) by (vm_compute; intuition discriminate).
  split; [exact Hwf |].
  exact (addContacts_empty_and_full solver2_last Hwf).
Defined.

Lemma runNarrowphaseAll_safe_witness :
  solver_ok (ctx_solver (spherePlane 0))
  /\ match runNarrowphaseAll (spherePlane 0) [pair01; pair10] with
     | Done ctx' =>
         narrowphase_grows (Z.of_nat (length [pair01; pair10]))
                           (spherePlane 0) ctx'
     | AssertFailed =>
         (exists cc, In cc [pair01; pair10]
                     /\ sphere_hull_pair (spherePlane 0) cc)
         \/ maxContacts (ctx_solver (spherePlane 0))
            - numContacts (ctx_solver (spherePlane 0))
            < Z.of_nat (length [pair01; pair10])
     | BufferOverrun _ | Unreachable => False
     end.
Proof.
  pose proof (runNarrowphaseAll_safe [pair01; pair10] (spherePlane 0)
                solver2_ok) as H.
  split; [exact solver2_ok | exact H].
Defined.

Lemma runNarrowphase_contact_of_pair_witness :
  runNarrowphase twoSpheres pair01
  = Done (add_event (ctx_push twoSpheres midContact)
                    (mkCollisionEvent 0%nat 1%nat))
  /\ appended_with (contact_of_pair pair01) twoSpheres
       (add_event (ctx_push twoSpheres midContact)
                  (mkCollisionEvent 0%nat 1%nat)).
Proof.
  assert (Hrun : runNarrowphase twoSpheres pair01
                 = Done (add_event (ctx_push twoSpheres midContact)
                                   (mkCollisionEvent 0%nat 1%nat)))
    by (vm_compute; reflexivity).
  split; [exact Hrun |].
  exact (proj1 (runNarrowphase_contact_of_pair twoSpheres _ pair01 Hrun)).
Defined.

Lemma runNarrowphase_order_independent_witness :
  (raw_type (prim_of (spherePlane 0) 0%nat)
   =? raw_type (prim_of (spherePlane 0) 1%nat)) = false
  /\ runNarrowphase (spherePlane 0) pair01
     = runNarrowphase (spherePlane 0) pair10.
Proof.
  split; [reflexivity |].
  apply (runNarrowphase_order_independent (spherePlane 0) 0%nat 1%nat).
  vm_compute. discriminate.
Defined.

Lemma hullPlane_contact_witness :
  solver_wf (ctx_solver hullOnPlane)
  /\ prim_of hullOnPlane 0%nat = PrimHull (mkHalfEdgeMesh [vec 0 0 (-1)])
  /\ prim_of hullOnPlane 1%nat = PrimPlane
  /\ runNarrowphase hullOnPlane pair01
     = Done (ctx_push hullOnPlane hullContact).
Proof.
  assert (Hwf : solver_wf (ctx_solver hullOnPlane))
    by (vm_compute; intuition discriminate).
  split; [exact Hwf |]. split; [reflexivity |]. split; [reflexivity |].
  exact (hullPlane_contact hullOnPlane pair01 0%nat 1%nat
           (mkHalfEdgeMesh [vec 0 0 (-1)])
           Hwf eq_refl (or_introl (conj eq_refl eq_refl)) eq_refl eq_refl).
Defined.

Lemma handleContact_separated_witness :
  (contact_gap restingWorld restingContact 0 <=? F32.zero)%f32 = true
  /\ ctx_Position
       (fst (handleContact restingWorld (ctx_objMgr restingWorld)
                           restingContact)) !!! 0%nat
     = vec 0 0 0
  /\ snd (handleContact restingWorld (ctx_objMgr restingWorld)
                        restingContact)
     = set_lambdaN restingContact F32.zero.
Proof.
  assert (Hsep : forall i : nat, (i < 4)%nat ->
            Z.of_nat i < numPoints restingContact ->
            (contact_gap restingWorld restingContact i <=? F32.zero)%f32
            = true).
  { intros i _ Hi. assert (i = 0%nat) as -> by (cbn in Hi; lia).
    reflexivity. }
  split; [reflexivity |].
  pose proof (handleContact_separated restingWorld (ctx_objMgr restingWorld)
                restingContact Hsep) as H.
  cbv zeta in H. destruct H as (Hp & _ & Hl).
  split; [exact (Hp 0%nat) | exact Hl].
Defined.

Lemma solveVelocities_static_witness :
  is_static (metadata_of restingWorld (ctx_objMgr restingWorld) 1%nat)
  /\ velocity_kept (ctx_Velocity restingWorld !!! 1%nat)
                   (ctx_Velocity (solveVelocities restingWorld) !!! 1%nat).
Proof.
  assert (Hst : is_static
                  (metadata_of restingWorld (ctx_objMgr restingWorld) 1%nat))
    by (split; reflexivity).
  split; [exact Hst |].
  exact (solveVelocities_static restingWorld 1%nat Hst).
Defined.

Lemma substepWorld_resets_witness :
  solver_ok (ctx_solver (spherePlane 0))
  /\ match substepWorld (spherePlane 0) [0; 1]%nat [pair01] with
     | Done ctx' =>
         numContacts (ctx_solver ctx') = 0
         /\ solver_ok (ctx_solver ctx')
         /\ maxContacts (ctx_solver ctx')
            = maxContacts (ctx_solver (spherePlane 0))
         /\ ctx_objMgr ctx' = ctx_objMgr (spherePlane 0)
         /\ ctx_ObjectID ctx' = ctx_ObjectID (spherePlane 0)
         /\ ctx_Scale ctx' = ctx_Scale (spherePlane 0)
         /\ (exists evs, ctx_events ctx' = ctx_events (spherePlane 0) ++ evs)
     | AssertFailed =>
         (exists cc, In cc [pair01] /\ sphere_hull_pair (spherePlane 0) cc)
         \/ maxContacts (ctx_solver (spherePlane 0))
            - numContacts (ctx_solver (spherePlane 0))
            < Z.of_nat (length [pair01])
     | BufferOverrun _ | Unreachable => False
     end.
Proof.
  pose proof (substepWorld_resets (spherePlane 0) [0; 1]%nat [pair01]
                solver2_ok) as H.
  split; [exact solver2_ok | exact H].
Defined.

Lemma entity_nodes_commute_witness :
  (0 =? 1)%nat = false
  /\ substepRigidBodiesNode (substepRigidBodiesNode twoSpheres 0%nat) 1%nat
     = substepRigidBodiesNode (substepRigidBodiesNode twoSpheres 1%nat) 0%nat.
Proof.
  split; [reflexivity |].
  apply (entity_nodes_commute twoSpheres 0%nat 1%nat). discriminate.
Defined.

Lemma updateCollisionAABB_at_rest_witness :
  v3_is_zero (linear restVelocity) = true
  /\ F32.is_finite (deltaT (ctx_solver twoSpheres)) = true
  /\ updateCollisionAABB twoSpheres [unitBox] (vec 3 0 0) qid 0%nat
                         restVelocity
     = mkAABB (vec (-98) (-101) (-101)) (vec 104 101 101).
Proof.
  split; [reflexivity |]. split; [reflexivity |].
  exact (updateCollisionAABB_at_rest twoSpheres [unitBox] (vec 3 0 0) qid
           0%nat restVelocity eq_refl eq_refl eq_refl).
Defined.

End MoreEvaluations.
